(** * deploy-static-site: a shallow embedding of [lib.js]

    The library walks a local directory, turns every matched path into an
    upload task and pushes the tasks to an S3 bucket that it first makes
    publicly readable.  All of it is callback-style JavaScript on top of
    [fs], [path], [glob], [async] and [mime].

    The embedding keeps the shape of the source:
    - JavaScript values that the code passes around ([undefined], [null],
      task objects, JSON documents) are inductive types;
    - a function that takes a [done] callback becomes an [action]: a tree
      that either invokes the callback, throws, or issues one asynchronous
      operation and continues with its answer;
    - the bounded fan-out of [async.mapLimit] / [async.eachLimit] is a pool
      driven by a schedule that picks which outstanding operation answers
      next;
    - the exported functions return a [run]: how [done] was invoked (if
      at all), the uncaught exception (if any) and the trace of operations
      and debug lines.

    The export list at the end of [lib.js] is not modelled; only the
    functions are. *)

From Stdlib Require Import Ascii String List Lia Arith.
From stdpp Require Import base list strings.

Set Warnings "-register-all".

(** ** Strings *)

Module Str.

(** The double-quote character, built from its code. *)
Definition dquote : ascii := ascii_of_nat 34.
Definition backslash : ascii := ascii_of_nat 92.

Definition of_char (c : ascii) : string := String c EmptyString.

Definition flush (cur : string) : list string :=
  if String.eqb cur "" then [] else [cur].

(** Non-empty pieces of [s] between separator characters; [cur] is the
    piece being read. *)
Fixpoint pieces (is_sep : ascii -> bool) (cur s : string) : list string :=
  match s with
  | EmptyString => flush cur
  | String c s' =>
      if is_sep c then flush cur ++ pieces is_sep "" s'
      else pieces is_sep (cur +:+ of_char c) s'
  end.

Definition lower_char (c : ascii) : ascii :=
  let n := nat_of_ascii c in
  if (65 <=? n) && (n <=? 90) then ascii_of_nat (n + 32) else c.

Fixpoint to_lower (s : string) : string :=
  match s with
  | EmptyString => EmptyString
  | String c s' => String (lower_char c) (to_lower s')
  end.

Definition starts_with_sep (is_sep : ascii -> bool) (s : string) : bool :=
  match s with
  | String c _ => is_sep c
  | EmptyString => false
  end.

Fixpoint of_nat_fuel (fuel n : nat) (acc : string) : string :=
  match fuel with
  | O => acc
  | S fuel' =>
      let d := of_char (ascii_of_nat (48 + n `mod` 10)) in
      if n <? 10 then d +:+ acc else of_nat_fuel fuel' (n / 10) (d +:+ acc)
  end.

(** Decimal rendering, as in [String(n)] for a non-negative integer. *)
Definition of_nat (n : nat) : string := of_nat_fuel (S n) n "".

End Str.

(** ** The host's [path] module

    [path] is Node's built-in module, not part of the repository.  The
    code uses [path.relative] and [path.format]; which implementation
    answers depends on the host ([path.posix] or [path.win32]).  A
    [PathModule] carries what differs between the two, and the two
    operations are written once over it, following Node's documented
    behaviour on paths that are absolute or relative to the working
    directory (on win32: drive-letter paths; UNC paths are outside the
    model). *)

(** Modelled from the spec: the path-join/relativize routine of the
    host, Node's [path] module (not under src/); the fields are what
    [path.posix] and [path.win32] differ in. *)

Record PathModule := {
  sep : ascii;                      (* path.sep *)
  is_sep : ascii -> bool;           (* separators accepted on input *)
  fold : string -> string;          (* how segments are compared *)
  is_absolute : string -> bool;     (* path.isAbsolute *)
  drives : bool;                    (* the first segment names a drive *)
  cwd : string                      (* process.cwd(), already absolute *)
}.

Module Path.

Definition segments (P : PathModule) (p : string) : list string :=
  Str.pieces (is_sep P) "" p.

(** Resolution of "." and ".." on a stack of segments (innermost
    first). *)
Fixpoint normalize (stack : list string) (segs : list string) : list string :=
  match segs with
  | [] => rev stack
  | s :: segs' =>
      if String.eqb s "." then normalize stack segs'
      else if String.eqb s ".." then normalize (tail stack) segs'
      else normalize (s :: stack) segs'
  end.

(** [path.resolve(p)], as the list of segments below the root. *)
Definition resolve (P : PathModule) (p : string) : list string :=
  if is_absolute P p then normalize [] (segments P p)
  else normalize [] (segments P (cwd P) ++ segments P p).

Definition seg_eqb (P : PathModule) (a b : string) : bool :=
  String.eqb (fold P a) (fold P b).

(** What is left of the two segment lists once their common prefix is
    removed. *)
Fixpoint diverge (P : PathModule) (from to : list string)
  : list string * list string :=
  match from, to with
  | a :: from', b :: to' =>
      if seg_eqb P a b then diverge P from' to' else (from, to)
  | _, _ => (from, to)
  end.

Definition join (P : PathModule) (segs : list string) : string :=
  String.concat (Str.of_char (sep P)) segs.

Definition same_head (P : PathModule) (from to : list string) : bool :=
  match from, to with
  | a :: _, b :: _ => seg_eqb P a b
  | _, _ => true
  end.

(** The segments of [path.relative(from, to)]: one ".." for every
    segment of [from] outside the common prefix, then the rest of [to];
    with drives, a path on another drive is returned whole. *)
Definition relative_segments (P : PathModule) (from to : string) : list string :=
  let f := resolve P from in
  let t := resolve P to in
  if drives P && negb (same_head P f t) then t
  else let '(up, down) := diverge P f t in map (fun _ => "..") up ++ down.

(** Modelled from the spec: [path.relative(from, to)] of Node's [path]
    module (not under src/), the relativize routine behind [remotePath]. *)
Definition relative (P : PathModule) (from to : string) : string :=
  join P (relative_segments P from to).

(** Modelled from the spec: [path.format({ dir: dir, base: base })] of
    Node's [path] module (not under src/), which composes the root and
    the search pattern into one glob expression. *)
Definition format (P : PathModule) (dir base : string) : string :=
  if String.eqb dir "" then base
  else dir +:+ Str.of_char (sep P) +:+ base.

Definition is_slash (c : ascii) : bool := Ascii.eqb c "/".
Definition is_slash_or_backslash (c : ascii) : bool :=
  Ascii.eqb c "/" || Ascii.eqb c Str.backslash.

Definition posix : PathModule := {|
  sep := "/"%char;
  is_sep := is_slash;
  fold := fun s => s;
  is_absolute := Str.starts_with_sep is_slash;
  drives := false;
  cwd := "/" |}.

Definition has_drive (p : string) : bool :=
  match p with
  | String _ (String ":" (String c _)) => is_slash_or_backslash c
  | _ => false
  end.

(** On win32 the drive (["C:"]) is the first segment; two paths on
    different drives share no prefix. *)
Definition win32 : PathModule := {|
  sep := Str.backslash;
  is_sep := is_slash_or_backslash;
  fold := Str.to_lower;
  is_absolute := has_drive;
  drives := true;
  cwd := "C:" +:+ Str.of_char Str.backslash |}.

End Path.

(** ** JSON documents and [JSON.stringify] *)

Inductive json :=
  | JString (s : string)
  | JArray (items : list json)
  | JObject (fields : list (string * json)).

Module Json.

Definition hex_digit (n : nat) : ascii :=
  if n <? 10 then ascii_of_nat (48 + n) else ascii_of_nat (87 + n).

(** One character of a string literal, escaped as [JSON.stringify]
    does. *)
Definition escape_char (c : ascii) : string :=
  let n := nat_of_ascii c in
  if Ascii.eqb c Str.dquote then String Str.backslash (Str.of_char Str.dquote)
  else if Ascii.eqb c Str.backslash then String Str.backslash (Str.of_char Str.backslash)
  else if n =? 8 then String Str.backslash "b"
  else if n =? 9 then String Str.backslash "t"
  else if n =? 10 then String Str.backslash "n"
  else if n =? 12 then String Str.backslash "f"
  else if n =? 13 then String Str.backslash "r"
  else if n <? 32 then
    String Str.backslash
      ("u00" +:+ String (hex_digit (n / 16)) (Str.of_char (hex_digit (n `mod` 16))))
  else Str.of_char c.

Fixpoint escape (s : string) : string :=
  match s with
  | EmptyString => EmptyString
  | String c s' => escape_char c +:+ escape s'
  end.

Definition quote (s : string) : string :=
  Str.of_char Str.dquote +:+ escape s +:+ Str.of_char Str.dquote.

Fixpoint stringify (j : json) : string :=
  match j with
  | JString s => quote s
  | JArray items => "[" +:+ String.concat "," (List.map stringify items) +:+ "]"
  | JObject fields =>
      "{" +:+
      String.concat ","
        (List.map (fun kv => match kv with
                             | (k, v) => quote k +:+ ":" +:+ stringify v
                             end) fields)
      +:+ "}"
  end.

(** [j[name]] on an object. *)
Definition field (name : string) (j : json) : option json :=
  match j with
  | JObject fields =>
      match List.find (fun kv => String.eqb (fst kv) name) fields with
      | Some kv => Some (snd kv)
      | None => None
      end
  | _ => None
  end.

(** Every field name that occurs in a document, in document order. *)
Fixpoint field_names (j : json) : list string :=
  match j with
  | JString _ => []
  | JArray items => List.concat (List.map field_names items)
  | JObject fields =>
      List.concat
        (List.map (fun kv => match kv with
                             | (k, v) => k :: field_names v
                             end) fields)
  end.

End Json.

(** ** The bucket policy (lib.js, [createAnonReadStatement] and
       [createAnonReadPolicy]) *)

Definition createAnonReadStatement (bucketName : string) : json :=
  JObject [
    ("Version", JString "2012-10-17");
    ("Statement", JArray [
       JObject [
         ("Sid", JString "AddPerm");
         ("Effect", JString "Allow");
         ("Principal", JString "*");
         ("Action", JArray [ JString "s3:GetObject" ]);
         ("Resource", JArray [
            JString ("arn:aws:s3:::" +:+ bucketName +:+ "/*");
            JString ("arn:aws:s3:::" +:+ bucketName +:+ "/**/*") ])
       ]
     ])
  ].

(** The argument of [s3.putBucketPolicy]. *)
Record PolicyParams := {
  PolicyBucket : string;    (* Bucket *)
  Policy : string
}.

Definition createAnonReadPolicy (bucketName : string) : PolicyParams := {|
  PolicyBucket := bucketName;
  Policy := Json.stringify (createAnonReadStatement bucketName) |}.

(** ** Values, operations and callbacks *)

(** An error value handed to a callback ([err]). *)
Definition error := string.

(** An exception thrown by the runtime. *)
Inductive exn :=
  | TypeError (msg : string).

(** The task object built by [makeLocalTask]. *)
Record Task := {
  type : string;
  localPath : string;
  remotePath : string
}.

(** What an entry of the task list can be. *)
Inductive value :=
  | VUndefined
  | VNull
  | VTask (t : Task).

(** [!!v] *)
Definition truthy (v : value) : bool :=
  match v with
  | VTask _ => true
  | VUndefined | VNull => false
  end.

(** What [fs.lstat] finds at a path; [lstat] does not follow links. *)
Inductive kind := RegularFile | Directory | SymbolicLink | Other.

Record Stats := { entry : kind }.

(** [stat.isFile()] *)
Definition isFile (st : Stats) : bool :=
  match entry st with
  | RegularFile => true
  | _ => false
  end.

(** [fs.createReadStream(path)] *)
Inductive stream :=
  | ReadStream (path : string).

(** The argument of [s3.upload]. *)
Record UploadParams := {
  Bucket : string;
  Key : string;
  ACL : string;
  ContentType : string;
  Body : stream
}.

(** The S3 client: how the remote store answers each call ([None]: no
    error). *)
Record S3 := {
  upload : UploadParams -> option error;
  putBucketPolicy : PolicyParams -> option error
}.

(** The [mime] module. *)
Record Mime := { lookup : string -> string }.

(** The asynchronous operations the library issues. *)
Inductive op :=
  | Lstat (path : string)
  | Glob (pattern : string)
  | S3Upload (s3 : S3) (params : UploadParams)
  | S3PutBucketPolicy (s3 : S3) (params : PolicyParams).

(** The second argument of a Node callback. *)
Inductive data :=
  | DUndefined
  | DStats (st : Stats)
  | DPaths (paths : list string).

(** The arguments [(err, data)] a Node callback receives. *)
Definition response : Type := option error * data.

(** What a function with a [done] parameter does: it invokes [done(err,
    res)], throws, writes a debug line and goes on, or issues an operation
    and goes on with the answer. *)
Inductive action :=
  | Callback (err : option error) (res : value)
  | Throw (e : exn)
  | Debug (msg : string) (next : action)
  | Issue (o : op) (k : response -> action).

(** The environment of a run: the file system, the glob walk, the host's
    path module and the module-level [mime]. *)
Record World := {
  path : PathModule;
  mime : Mime;
  lstat : string -> error + Stats;
  glob : string -> error + list string
}.

(** The callback arguments the environment answers an operation with. *)
Definition respond (w : World) (o : op) : response :=
  match o with
  | Lstat p =>
      match lstat w p with
      | inl e => (Some e, DUndefined)
      | inr st => (None, DStats st)
      end
  | Glob pattern =>
      match glob w pattern with
      | inl e => (Some e, DUndefined)
      | inr paths => (None, DPaths paths)
      end
  | S3Upload s3 params => (upload s3 params, DUndefined)
  | S3PutBucketPolicy s3 params => (putBucketPolicy s3 params, DUndefined)
  end.

(** [var MAX_PARALLEL = 25;] *)
Definition MAX_PARALLEL : nat := 25.

(** ** [makeLocalTask] (lib.js 17-27)

    The [lstat] callback never looks at [err]: it calls [stat.isFile()]
    on whatever the second argument is.  When [lstat] failed that argument
    is [undefined] and the call throws. *)
Definition makeLocalTask (P : PathModule) (rootPath localPath : string) : action :=
  Issue (Lstat localPath) (fun r =>
    match snd r with
    | DStats stat =>
        if negb (isFile stat) then Callback None VUndefined
        else Callback None (VTask {|
               type := "file";
               localPath := localPath;
               remotePath := Path.relative P rootPath localPath |})
    | _ => Throw (TypeError "Cannot read property 'isFile' of undefined")
    end).

(** ** [executeTaskOnS3] (lib.js 52-68)

    What the name [mime] can be bound to where the body reads it. *)
Inductive binding :=
  | Unassigned                 (* a declared [var] before its assignment *)
  | Required (m : Mime).       (* the [mime] module *)

(** [task.remotePath === ""] on a truthy task. *)
Definition remotePath_empty (task : value) : bool :=
  match task with
  | VTask t => String.eqb (remotePath t) ""
  | _ => false
  end.

(** [debug("Uploading '" + ... + "'")] *)
Definition uploading_line (local_path content_type bucketName remote_path : string) : string :=
  "Uploading '" +:+ local_path +:+ "' of '" +:+ content_type +:+ "' to '" +:+
  bucketName +:+ "' at '" +:+ remote_path +:+ "'".

(** [!task || task.remotePath === ""] *)
Definition skipped (task : value) : bool :=
  negb (truthy task) || remotePath_empty task.

(** The body of [executeTaskOnS3], given what [mime] denotes when
    [mime.lookup(task.localPath)] is evaluated. *)
Definition executeTaskOnS3_body (mime_binding : binding) (s3 : S3)
    (bucketName : string) (task : value) : action :=
  if skipped task then Callback None VUndefined
  else
    match task, mime_binding with
    | VTask t, Required m =>
        let content_type := lookup m (localPath t) in
        Issue (S3Upload s3 {|
                 Bucket := bucketName;
                 Key := remotePath t;
                 ACL := "public-read";
                 ContentType := content_type;
                 Body := ReadStream (localPath t) |})
              (fun r =>
                 match fst r with
                 | Some err => Callback (Some err) VUndefined
                 | None =>
                     Debug (uploading_line (localPath t) content_type bucketName (remotePath t))
                           (Callback None VUndefined)
                 end)
    | _, _ => Throw (TypeError "Cannot read property 'lookup' of undefined")
    end.

(** The function as written: [var mime = mime.lookup(task.localPath)]
    declares a local [mime]; the declaration is hoisted to the top of the
    function, so the [mime] on the right-hand side is that local, still
    unassigned, and never the module required at the top of the file. *)
Definition executeTaskOnS3 (s3 : S3) (bucketName : string) (task : value) : action :=
  executeTaskOnS3_body Unassigned s3 bucketName task.

(** ** Runs *)

(** How a completion callback has been invoked so far. *)
Inductive outcome (R : Type) :=
  | NotCalled
  | CalledErr (e : error)
  | CalledOk (r : R).

Arguments NotCalled {R}.
Arguments CalledErr {R} e.
Arguments CalledOk {R} r.

(** What an observer of the process sees, in order. *)
Inductive event :=
  | EvOp (o : op)
  | EvDebug (msg : string).

(** ** The limiter behind [async.mapLimit] and [async.eachLimit]

    [async.mapLimit] and [async.eachLimit] come from the [async] package,
    which is not under src/.  The spec describes them as a bounded worker
    pool: the iteratee is run for every item, items are started in order
    and only while fewer than the limit are outstanding, results are
    collected at the position of their item, the first error is handed to
    the final callback and nothing is started after it, operations already
    outstanding finish but are not reported, and the final callback is
    invoked at most once.  An exception that escapes an iteratee or one of
    its callbacks is not caught by the pool: it ends the process. *)

(** An operation that has been issued and not answered yet. *)
Record flight := {
  index : nat;
  operation : op;
  resume : response -> action
}.

(** Modelled from the spec: the state of the worker pool of
    [async.mapLimit] / [async.eachLimit] (package [async], not under
    src/): the items not started yet, the operations outstanding, the
    results collected so far and how the final callback was invoked. *)
Record pool (Item : Type) := {
  queue : list (nat * Item);          (* items not started, with their position *)
  running : list flight;              (* outstanding operations *)
  results : list value;               (* the results array *)
  final : outcome (list value);       (* the final callback *)
  uncaught : option exn;              (* an exception nobody caught *)
  trace : list event;
  peak : nat                          (* most operations outstanding at once *)
}.

Arguments queue {Item} _.
Arguments running {Item} _.
Arguments results {Item} _.
Arguments final {Item} _.
Arguments uncaught {Item} _.
Arguments trace {Item} _.
Arguments peak {Item} _.

Section Limiter.

Context {Item : Type}.
Variable limit : nat.
Variable iteratee : Item -> action.
Variable answer : op -> response.

Definition set_queue (q : list (nat * Item)) (st : pool Item) : pool Item :=
  {| queue := q; running := running st; results := results st; final := final st;
     uncaught := uncaught st; trace := trace st; peak := peak st |}.

Definition set_running (r : list flight) (st : pool Item) : pool Item :=
  {| queue := queue st; running := r; results := results st; final := final st;
     uncaught := uncaught st; trace := trace st; peak := peak st |}.

Definition set_final (f : outcome (list value)) (st : pool Item) : pool Item :=
  {| queue := queue st; running := running st; results := results st; final := f;
     uncaught := uncaught st; trace := trace st; peak := peak st |}.

Definition log (e : event) (st : pool Item) : pool Item :=
  {| queue := queue st; running := running st; results := results st; final := final st;
     uncaught := uncaught st; trace := trace st ++ [e]; peak := peak st |}.

(** Nothing is started any more: the final callback has been invoked or
    the process is gone. *)
Definition halted (st : pool Item) : bool :=
  match uncaught st, final st with
  | None, NotCalled => false
  | _, _ => true
  end.

(** Modelled from the spec: what the pool of [async.mapLimit] does with
    the action of item [i] up to the point where it returns to the event
    loop: a result goes to position [i], the first error goes to the final
    callback (invoked at most once), an issued operation becomes
    outstanding, an exception is not caught. *)
Fixpoint settle (i : nat) (a : action) (st : pool Item) : pool Item :=
  match a with
  | Debug msg next => settle i next (log (EvDebug msg) st)
  | Throw e =>
      {| queue := queue st; running := running st; results := results st;
         final := final st; uncaught := Some e; trace := trace st; peak := peak st |}
  | Issue o k =>
      let r := running st ++ [{| index := i; operation := o; resume := k |}] in
      {| queue := queue st; running := r; results := results st; final := final st;
         uncaught := uncaught st; trace := trace st ++ [EvOp o];
         peak := peak st `max` length r |}
  | Callback (Some e) _ =>
      match final st with
      | NotCalled => set_final (CalledErr e) st
      | _ => st
      end
  | Callback None v =>
      {| queue := queue st; running := running st; results := <[i:=v]> (results st);
         final := final st; uncaught := uncaught st; trace := trace st; peak := peak st |}
  end.

(** Whether the action ends by reporting success for its item. *)
Fixpoint reports_ok (a : action) : bool :=
  match a with
  | Callback None _ => true
  | Debug _ next => reports_ok next
  | _ => false
  end.

(** Every item has been started and answered: the final callback gets the
    results. *)
Definition finish (st : pool Item) : pool Item :=
  if halted st then st
  else
    match queue st, running st with
    | [], [] => set_final (CalledOk (results st)) st
    | _, _ => st
    end.

(** Modelled from the spec: the pool of [async.mapLimit] starts queued
    items, in order, while fewer than [limit] operations are outstanding
    and no error has been reported. *)
Fixpoint replenish (q : list (nat * Item)) (st : pool Item) : pool Item :=
  match q with
  | [] => finish (set_queue [] st)
  | (i, x) :: q' =>
      if halted st || negb (length (running st) <? limit) then set_queue q st
      else replenish q' (settle i (iteratee x) st)
  end.

(** Modelled from the spec: one operation of the pool of
    [async.mapLimit] is answered, the [n]-th outstanding one (counting
    round the list); its item goes on, and on success the pool starts
    further items. *)
Definition complete (n : nat) (st : pool Item) : pool Item :=
  match uncaught st with
  | Some _ => st
  | None =>
      let j := n `mod` length (running st) in
      match running st !! j with
      | None => st
      | Some f =>
          let a := resume f (answer (operation f)) in
          let st' := settle (index f) a (set_running (delete j (running st)) st) in
          if reports_ok a then replenish (queue st') st' else st'
      end
  end.

Fixpoint number (i : nat) (items : list Item) : list (nat * Item) :=
  match items with
  | [] => []
  | x :: items' => (i, x) :: number (S i) items'
  end.

Definition start (items : list Item) : pool Item :=
  replenish (number 0 items)
    {| queue := []; running := []; results := replicate (length items) VUndefined;
       final := NotCalled; uncaught := None; trace := []; peak := 0 |}.

(** Modelled from the spec: [async.mapLimit(items, limit, iteratee,
    final)] of the [async] package (not under src/), with the answers
    arriving in the order [sched] picks. *)
Definition mapLimit (items : list Item) (sched : list nat) : pool Item :=
  fold_left (fun st n => complete n st) sched (start items).

End Limiter.

(** Modelled from the spec: [async.eachLimit] of the [async] package
    (not under src/) is the same pool; its final callback gets no
    results. *)
Definition eachLimit {Item : Type} := @mapLimit Item.

(** ** The exported functions *)

(** What a call of an exported function amounts to: how its [done] was
    invoked, the exception that ended the process (if any), and what was
    observed. *)
Record run (R : Type) := {
  callback : outcome R;
  crash : option exn;
  observed : list event
}.

Arguments callback {R} _.
Arguments crash {R} _.
Arguments observed {R} _.

(** [searchPattern || "**"]: an omitted or empty pattern is falsy. *)
Definition pattern_or_default (searchPattern : option string) : string :=
  match searchPattern with
  | Some s => if String.eqb s "" then "**" else s
  | None => "**"
  end.

(** [buildLocalExecutionPlan] (lib.js 35-43).  [sched] is the order in
    which the [lstat] calls are answered. *)
Definition buildLocalExecutionPlan (w : World) (rootPath : string)
    (searchPattern : option string) (sched : list nat) : run (list value) :=
  let globPath := Path.format (path w) rootPath (pattern_or_default searchPattern) in
  let before := [EvDebug "Discovering files..."; EvOp (Glob globPath)] in
  match respond w (Glob globPath) with
  | (Some err, _) => {| callback := CalledErr err; crash := None; observed := before |}
  | (None, DPaths paths) =>
      let p := mapLimit MAX_PARALLEL (makeLocalTask (path w) rootPath) (respond w) paths sched in
      {| callback := final p; crash := uncaught p; observed := before ++ trace p |}
  | (None, _) =>
      let p := mapLimit MAX_PARALLEL (makeLocalTask (path w) rootPath) (respond w) [] sched in
      {| callback := final p; crash := uncaught p; observed := before ++ trace p |}
  end.

(** [configureWebsiteBucket] (lib.js 112-119) *)
Definition configureWebsiteBucket (w : World) (s3 : S3) (bucketName : string) : run unit :=
  let call := S3PutBucketPolicy s3 (createAnonReadPolicy bucketName) in
  match fst (respond w call) with
  | Some err => {| callback := CalledErr err; crash := None; observed := [EvOp call] |}
  | None =>
      {| callback := CalledOk tt; crash := None;
         observed := [EvOp call; EvDebug ("Made Bucket '" +:+ bucketName +:+ "' readable")] |}
  end.

(** The final callback of [eachLimit] carries no results. *)
Definition without_results {R : Type} (o : outcome R) : outcome unit :=
  match o with
  | NotCalled => NotCalled
  | CalledErr e => CalledErr e
  | CalledOk _ => CalledOk tt
  end.

(** [uploadDirToS3] (lib.js 129-137).  [sched1] orders the answers of the
    plan-building phase, [sched2] those of the upload phase. *)
Definition uploadDirToS3 (w : World) (rootPath : string) (dirSearchPattern : option string)
    (s3 : S3) (bucketName : string) (sched1 sched2 : list nat) : run unit :=
  let plan := buildLocalExecutionPlan w rootPath dirSearchPattern sched1 in
  match callback plan with
  | NotCalled => {| callback := NotCalled; crash := crash plan; observed := observed plan |}
  | CalledErr err => {| callback := CalledErr err; crash := crash plan; observed := observed plan |}
  | CalledOk tasks =>
      let p := eachLimit MAX_PARALLEL (executeTaskOnS3 s3 bucketName) (respond w) tasks sched2 in
      {| callback := without_results (final p);
         crash := uncaught p;
         observed :=
           observed plan ++
           [EvDebug ("Discovered " +:+ Str.of_nat (length tasks) +:+ " files...");
            EvDebug ("Uploading files Bucket '" +:+ bucketName +:+ "'")] ++
           trace p |}
  end.

(** [s3WebsiteFromDirectory] (lib.js 147-155).  The innermost callback
    ends with the debug line; it has no call of [done]. *)
Definition s3WebsiteFromDirectory (w : World) (rootPath : string)
    (dirSearchPattern : option string) (s3 : S3) (bucketName : string)
    (sched1 sched2 : list nat) : run unit :=
  let site := configureWebsiteBucket w s3 bucketName in
  match callback site with
  | NotCalled => site
  | CalledErr err => {| callback := CalledErr err; crash := None; observed := observed site |}
  | CalledOk _ =>
      let up := uploadDirToS3 w rootPath dirSearchPattern s3 bucketName sched1 sched2 in
      match callback up with
      | NotCalled =>
          {| callback := NotCalled; crash := crash up; observed := observed site ++ observed up |}
      | CalledErr err =>
          {| callback := CalledErr err; crash := crash up;
             observed := observed site ++ observed up |}
      | CalledOk _ =>
          {| callback := NotCalled; crash := crash up;
             observed := observed site ++ observed up ++
                         [EvDebug "SUCCESS: Finished Uploading files..."] |}
      end
  end.

(** ** Running one action to its end *)

(** How an action ends once every operation it issues has been answered. *)
Inductive verdict :=
  | Reported (err : option error) (res : value)
  | Thrown (e : exn).

Fixpoint conclude (answer : op -> response) (a : action) : verdict :=
  match a with
  | Callback err res => Reported err res
  | Throw e => Thrown e
  | Debug _ next => conclude answer next
  | Issue o k => conclude answer (k (answer o))
  end.

(** The number of operations an action issues on the way. *)
Fixpoint cost (answer : op -> response) (a : action) : nat :=
  match a with
  | Callback _ _ | Throw _ => 0
  | Debug _ next => cost answer next
  | Issue o k => S (cost answer (k (answer o)))
  end.

(** The operations an action issues on the way, in order. *)
Fixpoint issued (answer : op -> response) (a : action) : list op :=
  match a with
  | Callback _ _ | Throw _ => []
  | Debug _ next => issued answer next
  | Issue o k => o :: issued answer (k (answer o))
  end.

(** ** Vocabulary of the specification *)

(** The relative path written with forward slashes, whatever the host. *)
Definition slash_relative (P : PathModule) (rootPath localPath : string) : string :=
  String.concat "/" (Path.relative_segments P rootPath localPath).

(** [lstat] reports a regular file at [p]. *)
Definition regular (w : World) (p : string) : bool :=
  match lstat w p with
  | inr st => isFile st
  | inl _ => false
  end.

(** The entry of the plan for a matched path whose [lstat] succeeded. *)
Definition plan_entry (w : World) (rootPath p : string) : value :=
  if regular w p
  then VTask {| type := "file"; localPath := p;
                remotePath := Path.relative (path w) rootPath p |}
  else VUndefined.

(** ** Sample environments *)

Module Sample.

Definition html : Mime := {| lookup := fun _ => "text/html" |}.

(** A store that accepts every call. *)
Definition store : S3 := {|
  upload := fun _ => None;
  putBucketPolicy := fun _ => None |}.

(** A store that refuses every upload. *)
Definition read_only_store : S3 := {|
  upload := fun _ => Some "AccessDenied";
  putBucketPolicy := fun _ => None |}.

(** /site holds index.html, css/style.css and the empty directory img;
    /site/gone.txt vanished between the walk and the [lstat]. *)
Definition site_lstat (p : string) : error + Stats :=
  if String.eqb p "/site/index.html" then inr {| entry := RegularFile |}
  else if String.eqb p "/site/css/style.css" then inr {| entry := RegularFile |}
  else if String.eqb p "/site/css" then inr {| entry := Directory |}
  else if String.eqb p "/site/img" then inr {| entry := Directory |}
  else inl "ENOENT".

Definition site : World := {|
  path := Path.posix;
  mime := html;
  lstat := site_lstat;
  glob := fun _ => inr ["/site/index.html"; "/site/css"; "/site/css/style.css"; "/site/img"] |}.

(** The walk matched only the directory img. *)
Definition only_img : World := {|
  path := Path.posix;
  mime := html;
  lstat := site_lstat;
  glob := fun _ => inr ["/site/img"] |}.

(** The walk matched only index.html. *)
Definition only_index : World := {|
  path := Path.posix;
  mime := html;
  lstat := site_lstat;
  glob := fun _ => inr ["/site/index.html"] |}.

(** The walk matched a file that is gone when [lstat] runs. *)
Definition stale : World := {|
  path := Path.posix;
  mime := html;
  lstat := site_lstat;
  glob := fun _ => inr ["/site/index.html"; "/site/gone.txt"] |}.

(** The same site on a win32 host. *)
Definition windows : World := {|
  path := Path.win32;
  mime := html;
  lstat := fun _ => inr {| entry := RegularFile |};
  glob := fun _ => inr ["C:/site/css/style.css"] |}.

Definition index_task : Task := {|
  type := "file"; localPath := "/site/index.html"; remotePath := "index.html" |}.

Definition root_task : Task := {|
  type := "file"; localPath := "/site"; remotePath := "" |}.

(** A store that refuses the object f3 and accepts the others. *)
Definition store_refusing_f3 : S3 := {|
  upload := fun params => if String.eqb (Key params) "f3" then Some "SlowDown" else None;
  putBucketPolicy := fun _ => None |}.

(** Ten file tasks f1 .. f10. *)
Definition ten_tasks : list value :=
  map (fun n => VTask {| type := "file";
                         localPath := "/site/f" +:+ Str.of_nat n;
                         remotePath := "f" +:+ Str.of_nat n |})
      (seq 1 10).

(** A hundred matched paths, all regular files. *)
Definition hundred : list string := repeat "C:/site/css/style.css" 100.

End Sample.

(** ** Invariants of the pool *)

Section PoolInvariants.

Context {Item : Type}.
Variable limit : nat.
Variable iteratee : Item -> action.
Variable answer : op -> response.
Variable items : list Item.

(** At most [limit] operations are outstanding, and never were more. *)
Definition bounded (st : pool Item) : Prop :=
  length (running st) <= limit /\ peak st <= limit.

(** Once the final callback has been handed the results, nothing is
    outstanding and nothing is queued. *)
Definition at_rest (st : pool Item) : Prop :=
  forall r : list value, final st = CalledOk r -> running st = [] /\ queue st = [].

(** A pool that has issued nothing. *)
Definition silent (st : pool Item) : Prop :=
  running st = [] /\ trace st = [] /\ peak st = 0.

(** The flight belongs to an item that has been started, and will end the
    way the item's action ends. *)
Definition pool_flight (k : nat) (f : flight) : Prop :=
  exists x : Item,
    items !! index f = Some x /\ index f < k /\
    conclude answer (resume f (answer (operation f))) = conclude answer (iteratee x).

(** Item [i] is still in flight, or it reported its result, which sits
    at position [i] of the results. *)
Definition accounted (st : pool Item) (i : nat) (x : Item) : Prop :=
  (exists f : flight, f ∈ running st /\ index f = i) \/
  (exists v : value,
     conclude answer (iteratee x) = Reported None v /\ results st !! i = Some v).

(** The pool after [k] items have been started, the final callback not
    yet invoked; item [hole] is being worked on. *)
Definition pool_core (st : pool Item) (k : nat) (hole : option nat) : Prop :=
  length (results st) = length items /\
  final st = NotCalled /\
  (forall f : flight, f ∈ running st -> pool_flight k f) /\
  match uncaught st with
  | Some e => exists x : Item, x ∈ items /\ conclude answer (iteratee x) = Thrown e
  | None =>
      forall (i : nat) (x : Item),
        i < k -> hole <> Some i -> items !! i = Some x -> accounted st i x
  end.

(** A pool at rest with work left. *)
Definition pool_active (st : pool Item) : Prop :=
  exists k : nat,
    queue st = drop k (number 0 items) /\
    pool_core st k None /\
    (uncaught st = None -> running st <> []).

(** A pool that has handed its results to the final callback. *)
Definition pool_finished (st : pool Item) : Prop :=
  queue st = [] /\ running st = [] /\ uncaught st = None /\
  final st = CalledOk (results st) /\
  length (results st) = length items /\
  forall (i : nat) (x : Item),
    items !! i = Some x ->
    exists v : value,
      conclude answer (iteratee x) = Reported None v /\ results st !! i = Some v.

Definition pool_inv (st : pool Item) : Prop := pool_active st \/ pool_finished st.

(** The operations still to be answered: those of the flights and their
    continuations, and those of the queued items. *)
Fixpoint flights_load (fs : list flight) : nat :=
  match fs with
  | [] => 0
  | f :: fs' => S (cost answer (resume f (answer (operation f)))) + flights_load fs'
  end.

Fixpoint queue_load (q : list (nat * Item)) : nat :=
  match q with
  | [] => 0
  | (_, x) :: q' => cost answer (iteratee x) + queue_load q'
  end.

Definition load (st : pool Item) : nat :=
  flights_load (running st) + queue_load (queue st).

(** The operations a list of items issues in all. *)
Fixpoint work (l : list Item) : nat :=
  match l with
  | [] => 0
  | x :: l' => cost answer (iteratee x) + work l'
  end.

End PoolInvariants.

(** ** Further vocabulary and sample environments *)

(** An event that is a call to the remote store. *)
Definition is_s3 (e : event) : bool :=
  match e with
  | EvOp (S3Upload _ _) | EvOp (S3PutBucketPolicy _ _) => true
  | _ => false
  end.

(** The trace entry of the [lstat] of a path. *)
Definition lstat_event (p : string) : event := EvOp (Lstat p).

(** An action that ends at once: it invokes its callback or throws. *)
Definition terminal (a : action) : Prop :=
  match a with
  | Callback _ _ | Throw _ => True
  | Debug _ _ | Issue _ _ => False
  end.

(** A matched path for which [executeTaskOnS3] goes past its guard: a
    regular file whose path relative to the root is not empty. *)
Definition uploadable (w : World) (rootPath p : string) : bool :=
  regular w p && negb (String.eqb (Path.relative (path w) rootPath p) "").

Section Traced.

Context {Item : Type}.
Variable items : list Item.
Variable op_of : Item -> op.

(** The trace of a pool whose items each issue one operation: it holds
    the operations of the items started so far, in the order of the
    items, and no flight will add to it. *)
Definition traced (st : pool Item) : Prop :=
  exists k : nat,
    queue st = drop k (number 0 items) /\
    trace st = map (fun x => EvOp (op_of x)) (take k items) /\
    forall f : flight, f ∈ running st -> forall r : response, terminal (resume f r).

End Traced.

Module Fixture.

(** A store that refuses the policy. *)
Definition locked_store : S3 := {|
  upload := fun _ => None;
  putBucketPolicy := fun _ => Some "AccessDenied" |}.

(** The walk itself fails. *)
Definition unreadable : World := {|
  path := Path.posix;
  mime := Sample.html;
  lstat := Sample.site_lstat;
  glob := fun _ => inl "EACCES" |}.

(** The root is a regular file and the walk matches it. *)
Definition root_is_file : World := {|
  path := Path.posix;
  mime := Sample.html;
  lstat := fun _ => inr {| entry := RegularFile |};
  glob := fun _ => inr ["/site"] |}.

(** The walk matches the two directories of the site. *)
Definition only_directories : World := {|
  path := Path.posix;
  mime := Sample.html;
  lstat := Sample.site_lstat;
  glob := fun _ => inr ["/site/css"; "/site/img"] |}.

(** Thirty matched paths, all directories. *)
Definition thirty : list string := repeat "/site/img" 30.

Definition thirty_directories : World := {|
  path := Path.posix;
  mime := Sample.html;
  lstat := Sample.site_lstat;
  glob := fun _ => inr thirty |}.

End Fixture.

(** * Properties *)

(** ** The bucket policy *)

(** C5: for every bucket name the policy document has the Resource array
    [arn:aws:s3:::b/*; arn:aws:s3:::b/**/*], the Action array
    [s3:GetObject], Version 2012-10-17, Sid AddPerm, Effect Allow and
    Principal *, and its field names are exactly Version, Statement, Sid,
    Effect, Principal, Action, Resource; the document is what
    [createAnonReadPolicy] serialises for the bucket. *)
Theorem createAnonReadStatement_shape : forall bucketName : string,
  exists stmt : json,
    Json.field "Statement" (createAnonReadStatement bucketName) = Some (JArray [stmt]) /\
    Json.field "Resource" stmt =
      Some (JArray [JString ("arn:aws:s3:::" +:+ bucketName +:+ "/*");
                    JString ("arn:aws:s3:::" +:+ bucketName +:+ "/**/*")]) /\
    Json.field "Action" stmt = Some (JArray [JString "s3:GetObject"]) /\
    Json.field "Version" (createAnonReadStatement bucketName) = Some (JString "2012-10-17") /\
    Json.field "Sid" stmt = Some (JString "AddPerm") /\
    Json.field "Effect" stmt = Some (JString "Allow") /\
    Json.field "Principal" stmt = Some (JString "*") /\
    Json.field_names (createAnonReadStatement bucketName) =
      ["Version"; "Statement"; "Sid"; "Effect"; "Principal"; "Action"; "Resource"] /\
    PolicyBucket (createAnonReadPolicy bucketName) = bucketName /\
    Policy (createAnonReadPolicy bucketName) =
      Json.stringify (createAnonReadStatement bucketName).
Proof.
  intros bucketName.
  eexists. split; [reflexivity|].
  repeat split; reflexivity.
Qed.

Example policy_of_my_bucket :
  Json.field_names (createAnonReadStatement "my-bucket") =
    ["Version"; "Statement"; "Sid"; "Effect"; "Principal"; "Action"; "Resource"] /\
  String.length (Policy (createAnonReadPolicy "my-bucket")) = 185.
Proof. split; vm_compute; reflexivity. Qed.

(** ** The path translator *)

Lemma seg_eqb_refl (P : PathModule) (s : string) : Path.seg_eqb P s s = true.
Proof. unfold Path.seg_eqb. apply String.eqb_refl. Qed.

Lemma diverge_prefix (P : PathModule) (root rest : list string) :
  Path.diverge P root (root ++ rest) = ([], rest).
Proof.
  induction root as [|s root IH]; simpl.
  - reflexivity.
  - rewrite seg_eqb_refl. exact IH.
Qed.

(** Below the root, the posix relative path is the remaining segments
    joined with slashes. *)
Lemma relative_posix_below (rootPath localPath : string) (rest : list string) :
  Path.resolve Path.posix localPath = Path.resolve Path.posix rootPath ++ rest ->
  Path.relative Path.posix rootPath localPath = String.concat "/" rest.
Proof.
  intros Hbelow. unfold Path.relative, Path.relative_segments.
  rewrite Hbelow. simpl drives. cbn [andb].
  rewrite diverge_prefix. reflexivity.
Qed.

(** What [makeLocalTask] reports, by what [lstat] answered. *)
Lemma makeLocalTask_conclude (P : PathModule) (answer : op -> response)
    (rootPath localPath : string) :
  conclude answer (makeLocalTask P rootPath localPath) =
    match snd (answer (Lstat localPath)) with
    | DStats stat =>
        if isFile stat
        then Reported None (VTask {| type := "file"; localPath := localPath;
                                     remotePath := Path.relative P rootPath localPath |})
        else Reported None VUndefined
    | _ => Thrown (TypeError "Cannot read property 'isFile' of undefined")
    end.
Proof.
  unfold makeLocalTask. simpl.
  destruct (snd (answer (Lstat localPath))) as [|stat|paths]; try reflexivity.
  destruct (isFile stat); reflexivity.
Qed.

(** C9, as amended: the [remotePath] of a task is
    [path.relative(rootPath, localPath)] of the host's path module, that
    is the relative segments joined with the host's separator; on a posix
    host, for a path below the root, it is the remaining segments joined
    with forward slashes. *)
Theorem makeLocalTask_remotePath :
  forall (P : PathModule) (answer : op -> response) (rootPath entryPath : string) (t : Task),
    conclude answer (makeLocalTask P rootPath entryPath) = Reported None (VTask t) ->
    type t = "file" /\
    localPath t = entryPath /\
    remotePath t =
      String.concat (Str.of_char (sep P)) (Path.relative_segments P rootPath entryPath) /\
    (P = Path.posix ->
     forall rest : list string,
       Path.resolve P entryPath = Path.resolve P rootPath ++ rest ->
       remotePath t = String.concat "/" rest).
Proof.
  intros P answer rootPath entryPath t H.
  rewrite makeLocalTask_conclude in H.
  destruct (snd (answer (Lstat entryPath))) as [|stat|paths]; try discriminate.
  destruct (isFile stat); [|discriminate].
  injection H as <-. simpl.
  repeat split.
  intros -> rest Hbelow. apply relative_posix_below. exact Hbelow.
Qed.

Lemma makeLocalTask_remotePath_witness :
  type Sample.index_task = "file" /\
  localPath Sample.index_task = "/site/index.html" /\
  remotePath Sample.index_task =
    String.concat (Str.of_char (sep Path.posix))
      (Path.relative_segments Path.posix "/site" "/site/index.html") /\
  (Path.posix = Path.posix ->
   forall rest : list string,
     Path.resolve Path.posix "/site/index.html" = Path.resolve Path.posix "/site" ++ rest ->
     remotePath Sample.index_task = String.concat "/" rest).
Proof.
  apply (makeLocalTask_remotePath Path.posix (respond Sample.site) "/site" "/site/index.html").
  vm_compute. reflexivity.
Defined.

(** C9, as stated, fails on a win32 host: the task for
    C:/site/css/style.css under C:/site gets the key css\style.css, not
    css/style.css. *)
Lemma remotePath_on_win32 :
  let t := {| type := "file"; localPath := "C:/site/css/style.css";
              remotePath := "css\style.css" |} in
  conclude (respond Sample.windows)
    (makeLocalTask Path.win32 "C:/site" "C:/site/css/style.css") = Reported None (VTask t) /\
  slash_relative Path.win32 "C:/site" "C:/site/css/style.css" = "css/style.css" /\
  remotePath t <> slash_relative Path.win32 "C:/site" "C:/site/css/style.css".
Proof.
  cbv zeta. split; [vm_compute; reflexivity|].
  split; [vm_compute; reflexivity|].
  vm_compute. discriminate.
Qed.

(** ** [executeTaskOnS3] on one task *)

(** A falsy task is answered at once. *)
Lemma executeTaskOnS3_body_falsy (mb : binding) (s3 : S3) (bucketName : string) (task : value) :
  truthy task = false ->
  executeTaskOnS3_body mb s3 bucketName task = Callback None VUndefined.
Proof. intros H. unfold executeTaskOnS3_body, skipped. rewrite H. reflexivity. Qed.

(** Whatever [mime] denotes, an operation is issued only for a task with
    a non-empty [remotePath], and it is the upload to that key. *)
Lemma executeTaskOnS3_body_issue (mb : binding) (s3 : S3) (bucketName : string)
    (task : value) (o : op) (k : response -> action) :
  executeTaskOnS3_body mb s3 bucketName task = Issue o k ->
  exists (t : Task) (m : Mime),
    task = VTask t /\ mb = Required m /\ remotePath t <> "" /\
    o = S3Upload s3 {| Bucket := bucketName; Key := remotePath t; ACL := "public-read";
                       ContentType := lookup m (localPath t);
                       Body := ReadStream (localPath t) |}.
Proof.
  unfold executeTaskOnS3_body, skipped.
  destruct task as [| |t]; simpl; try discriminate.
  destruct (String.eqb_spec (remotePath t) "") as [He|Hne]; simpl; [discriminate|].
  destruct mb as [|m]; [discriminate|].
  intros H. injection H as <- _. exists t, m. repeat split. exact Hne.
Qed.

(** With the module in scope the upload the specification describes is
    issued, and its error, if any, is handed to [done]. *)
Lemma executeTaskOnS3_body_required (m : Mime) (s3 : S3) (bucketName : string) (t : Task)
    (answer : op -> response) :
  remotePath t <> "" ->
  let call := S3Upload s3 {| Bucket := bucketName; Key := remotePath t; ACL := "public-read";
                             ContentType := lookup m (localPath t);
                             Body := ReadStream (localPath t) |} in
  issued answer (executeTaskOnS3_body (Required m) s3 bucketName (VTask t)) = [call] /\
  conclude answer (executeTaskOnS3_body (Required m) s3 bucketName (VTask t)) =
    Reported (fst (answer call)) VUndefined.
Proof.
  intros Hne. unfold executeTaskOnS3_body, skipped. simpl.
  destruct (String.eqb_spec (remotePath t) "") as [He|_]; [contradiction|]. simpl.
  destruct (fst (answer _)); split; reflexivity.
Qed.

(** C7: a task whose [remotePath] is the empty string is completed at
    once, with no error and without issuing any operation, whatever
    [mime] denotes, and the one-task plan that holds it runs to success
    with no remote call; hence a task for which a write is issued has a
    non-empty [remotePath]. *)
Theorem executeTaskOnS3_ignores_root :
  forall (w : World) (s3 : S3) (bucketName : string) (t : Task) (sched : list nat),
    remotePath t = "" ->
    executeTaskOnS3 s3 bucketName (VTask t) = Callback None VUndefined /\
    issued (respond w) (executeTaskOnS3 s3 bucketName (VTask t)) = [] /\
    (forall mime_binding : binding,
       executeTaskOnS3_body mime_binding s3 bucketName (VTask t) = Callback None VUndefined) /\
    let p := eachLimit MAX_PARALLEL (executeTaskOnS3 s3 bucketName) (respond w) [VTask t] sched in
    without_results (final p) = CalledOk tt /\ uncaught p = None /\ trace p = [].
Proof.
  intros w s3 bucketName t sched Hroot.
  assert (Hbody : forall mime_binding : binding,
            executeTaskOnS3_body mime_binding s3 bucketName (VTask t) = Callback None VUndefined).
  { intros mb. unfold executeTaskOnS3_body, skipped. simpl. rewrite Hroot. reflexivity. }
  assert (Hnoop : executeTaskOnS3 s3 bucketName (VTask t) = Callback None VUndefined)
    by apply Hbody.
  split; [exact Hnoop|]. split; [rewrite Hnoop; reflexivity|]. split; [exact Hbody|].
  assert (Hstart : start MAX_PARALLEL (executeTaskOnS3 s3 bucketName) [VTask t] =
            {| queue := []; running := []; results := [VUndefined];
               final := CalledOk [VUndefined]; uncaught := None; trace := []; peak := 0 |}).
  { unfold start. simpl. rewrite Hnoop. reflexivity. }
  unfold eachLimit, mapLimit. rewrite Hstart.
  induction sched as [|n sched IH]; simpl; [repeat split|exact IH].
Qed.

Lemma executeTaskOnS3_ignores_root_witness :
  executeTaskOnS3 Sample.store "my-bucket" (VTask Sample.root_task) = Callback None VUndefined /\
  issued (respond Sample.site)
    (executeTaskOnS3 Sample.store "my-bucket" (VTask Sample.root_task)) = [] /\
  (forall mime_binding : binding,
     executeTaskOnS3_body mime_binding Sample.store "my-bucket" (VTask Sample.root_task) =
       Callback None VUndefined) /\
  let p := eachLimit MAX_PARALLEL (executeTaskOnS3 Sample.store "my-bucket")
             (respond Sample.site) [VTask Sample.root_task] [0] in
  without_results (final p) = CalledOk tt /\ uncaught p = None /\ trace p = [].
Proof.
  apply (executeTaskOnS3_ignores_root Sample.site Sample.store "my-bucket" Sample.root_task [0]).
  reflexivity.
Defined.

(** ** The bound on outstanding operations *)

Section Bound.

Context {Item : Type}.
Variable limit : nat.
Variable iteratee : Item -> action.
Variable answer : op -> response.

Lemma settle_bounded (i : nat) (a : action) :
  forall st : pool Item,
    length (running st) < limit -> peak st <= limit ->
    bounded limit (settle i a st).
Proof.
  induction a as [err res|e|msg next IH|o k IH]; intros st Hlen Hpeak.
  - destruct err as [e|]; simpl; [destruct (final st)|]; split; simpl; lia.
  - split; simpl; lia.
  - simpl. apply IH; simpl; assumption.
  - split; simpl; rewrite ?length_app; simpl; lia.
Qed.

Lemma finish_bounded (st : pool Item) : bounded limit st -> bounded limit (finish st).
Proof.
  intros Hb. unfold finish.
  destruct (halted st); [exact Hb|].
  destruct (queue st); [|exact Hb].
  destruct (running st) eqn:Hr; [|exact Hb].
  destruct Hb as [H1 H2]. split; simpl; [rewrite Hr; simpl; lia|exact H2].
Qed.

Lemma replenish_bounded (q : list (nat * Item)) :
  forall st : pool Item, bounded limit st -> bounded limit (replenish limit iteratee q st).
Proof.
  induction q as [|[i x] q IH]; intros st Hb; simpl.
  - apply finish_bounded. exact Hb.
  - destruct (halted st || negb (length (running st) <? limit)) eqn:Hstop.
    + exact Hb.
    + apply orb_false_elim in Hstop as [_ Hroom].
      apply negb_false_iff, Nat.ltb_lt in Hroom.
      apply IH, settle_bounded; [exact Hroom|apply Hb].
Qed.

Lemma complete_bounded (n : nat) (st : pool Item) :
  bounded limit st -> bounded limit (complete limit iteratee answer n st).
Proof.
  intros Hb. unfold complete.
  destruct (uncaught st); [exact Hb|].
  destruct (running st !! (n `mod` length (running st))) as [f|] eqn:Hf; [|exact Hb].
  assert (Hsettled : bounded limit
            (settle (index f) (resume f (answer (operation f)))
               (set_running (delete (n `mod` length (running st)) (running st)) st))).
  { destruct Hb as [Hlen Hpeak].
    apply lookup_lt_Some in Hf as Hlt.
    apply settle_bounded; simpl; [|exact Hpeak].
    rewrite length_delete by eauto. lia. }
  destruct (reports_ok _); [apply replenish_bounded|]; exact Hsettled.
Qed.

Lemma start_bounded (items : list Item) : bounded limit (start limit iteratee items).
Proof. apply replenish_bounded. split; simpl; lia. Qed.

Lemma mapLimit_bounded (items : list Item) (sched : list nat) :
  bounded limit (mapLimit limit iteratee answer items sched).
Proof.
  unfold mapLimit. generalize (start_bounded items).
  generalize (start limit iteratee items).
  induction sched as [|n sched IH]; intros st Hb; simpl; [exact Hb|].
  apply IH, complete_bounded, Hb.
Qed.

(** [peak] is a high-water mark: it is never below the number of
    operations outstanding. *)
Lemma settle_high_water (i : nat) (a : action) :
  forall st : pool Item,
    length (running st) <= peak st ->
    length (running (settle i a st)) <= peak (settle i a st).
Proof.
  induction a as [err res|e|msg next IH|o k IH]; intros st Hst; simpl.
  - destruct err as [e|]; [destruct (final st)|]; simpl; exact Hst.
  - exact Hst.
  - apply IH. exact Hst.
  - lia.
Qed.

Lemma replenish_high_water (q : list (nat * Item)) :
  forall st : pool Item,
    length (running st) <= peak st ->
    length (running (replenish limit iteratee q st)) <= peak (replenish limit iteratee q st).
Proof.
  induction q as [|[i x] q IH]; intros st Hst; simpl.
  - unfold finish. destruct (halted _); [exact Hst|]. simpl.
    destruct (running st) eqn:Hr; simpl; rewrite ?Hr; exact Hst.
  - destruct (halted st || negb (length (running st) <? limit)); [exact Hst|].
    apply IH, settle_high_water, Hst.
Qed.

Lemma complete_high_water (n : nat) (st : pool Item) :
  length (running st) <= peak st ->
  length (running (complete limit iteratee answer n st)) <=
    peak (complete limit iteratee answer n st).
Proof.
  intros Hst. unfold complete.
  destruct (uncaught st); [exact Hst|].
  destruct (running st !! (n `mod` length (running st))) as [f|] eqn:Hf; [|exact Hst].
  assert (Hsettled :
    let st' := settle (index f) (resume f (answer (operation f)))
                 (set_running (delete (n `mod` length (running st)) (running st)) st) in
    length (running st') <= peak st').
  { apply settle_high_water. simpl. rewrite length_delete by eauto. lia. }
  destruct (reports_ok _); [apply replenish_high_water|]; exact Hsettled.
Qed.

Lemma mapLimit_high_water (items : list Item) (sched : list nat) :
  length (running (mapLimit limit iteratee answer items sched)) <=
    peak (mapLimit limit iteratee answer items sched).
Proof.
  unfold mapLimit.
  assert (Hstart : length (running (start limit iteratee items)) <=
                   peak (start limit iteratee items)).
  { apply replenish_high_water. simpl. lia. }
  revert Hstart. generalize (start limit iteratee items).
  induction sched as [|n sched IH]; intros st Hst; simpl; [exact Hst|].
  apply IH, complete_high_water, Hst.
Qed.

Lemma settle_not_ok (i : nat) (a : action) :
  forall st : pool Item,
    (forall r : list value, final st <> CalledOk r) ->
    forall r : list value, final (settle i a st) <> CalledOk r.
Proof.
  induction a as [err res|e|msg next IH|o k IH]; intros st Hst r; simpl; try apply Hst.
  - destruct err as [e|]; [|apply Hst].
    destruct (final st) eqn:Hf; simpl;
      [discriminate|rewrite Hf; discriminate|destruct (Hst r0 eq_refl)].
  - apply IH. exact Hst.
Qed.

Lemma replenish_at_rest (q : list (nat * Item)) :
  forall st : pool Item,
    (forall r : list value, final st <> CalledOk r) ->
    at_rest (replenish limit iteratee q st).
Proof.
  induction q as [|[i x] q IH]; intros st Hst; simpl.
  - unfold finish. destruct (halted _); [intros r Hr; destruct (Hst r Hr)|].
    simpl. destruct (running st) eqn:Hrun.
    + intros r _. simpl. split; [exact Hrun|reflexivity].
    + intros r Hr. destruct (Hst r Hr).
  - destruct (halted st || negb (length (running st) <? limit)).
    + intros r Hr. destruct (Hst r Hr).
    + apply IH, settle_not_ok, Hst.
Qed.

Lemma complete_at_rest (n : nat) (st : pool Item) :
  at_rest st -> at_rest (complete limit iteratee answer n st).
Proof.
  intros Hrest. unfold complete.
  destruct (uncaught st); [exact Hrest|].
  destruct (running st !! (n `mod` length (running st))) as [f|] eqn:Hf; [|exact Hrest].
  assert (Hopen : forall r : list value, final st <> CalledOk r).
  { intros r Hr. destruct (Hrest r Hr) as [Hrun _]. rewrite Hrun in Hf. discriminate. }
  destruct (reports_ok _).
  - apply replenish_at_rest, settle_not_ok. exact Hopen.
  - intros r Hr. exfalso. revert Hr. apply settle_not_ok. exact Hopen.
Qed.

Lemma mapLimit_at_rest (items : list Item) (sched : list nat) :
  at_rest (mapLimit limit iteratee answer items sched).
Proof.
  unfold mapLimit.
  assert (Hstart : at_rest (start limit iteratee items)).
  { apply replenish_at_rest. discriminate. }
  revert Hstart. generalize (start limit iteratee items).
  induction sched as [|n sched IH]; intros st Hrest; simpl; [exact Hrest|].
  apply IH, complete_at_rest, Hrest.
Qed.

End Bound.

(** ** Pools whose iteratee never reports an error *)

Section Quiet.

Context {Item : Type}.
Variable limit : nat.
Variable iteratee : Item -> action.
Variable answer : op -> response.
Variable items : list Item.

Hypothesis limit_pos : 0 < limit.
Hypothesis quiet :
  forall (x : Item) (e : error) (v : value),
    x ∈ items -> conclude answer (iteratee x) <> Reported (Some e) v.

#[local] Abbreviation core := (pool_core iteratee answer items).
#[local] Abbreviation active := (pool_active iteratee answer items).
#[local] Abbreviation finished := (pool_finished iteratee answer items).
#[local] Abbreviation inv := (pool_inv iteratee answer items).
#[local] Abbreviation flight_of_item := (pool_flight iteratee answer items).

Lemma number_length (j : nat) (l : list Item) : length (number j l) = length l.
Proof. revert j. induction l as [|x l IH]; intros j; simpl; [reflexivity|]. rewrite IH. reflexivity. Qed.

Lemma number_lookup (l : list Item) :
  forall j k : nat, number j l !! k = (fun x => (j + k, x)) <$> l !! k.
Proof.
  induction l as [|x l IH]; intros j k; simpl; [reflexivity|].
  destruct k as [|k]; simpl.
  - rewrite Nat.add_0_r. reflexivity.
  - rewrite IH. replace (S j + k) with (j + S k) by lia. reflexivity.
Qed.

(** The head of the queue is the next item, at its own position. *)
Lemma queue_head (k i : nat) (x : Item) (q : list (nat * Item)) :
  drop k (number 0 items) = (i, x) :: q ->
  i = k /\ items !! k = Some x /\ q = drop (S k) (number 0 items).
Proof.
  intros Hq.
  assert (Hk : number 0 items !! k = Some (i, x)).
  { rewrite <- (Nat.add_0_r k), <- lookup_drop, Hq. reflexivity. }
  rewrite number_lookup in Hk. simpl in Hk.
  destruct (items !! k) as [y|] eqn:Hy; simpl in Hk; [|discriminate].
  injection Hk as <- <-. repeat split.
  rewrite (drop_S _ (k, y) k) in Hq.
  - inversion Hq. reflexivity.
  - rewrite number_lookup, Hy. reflexivity.
Qed.

Lemma queue_empty (k : nat) : drop k (number 0 items) = [] -> length items <= k.
Proof.
  intros Hq. apply (f_equal length) in Hq.
  rewrite length_drop, number_length in Hq. simpl in Hq. lia.
Qed.

Lemma settle_queue (i : nat) (a : action) :
  forall st : pool Item, queue (settle i a st) = queue st.
Proof.
  induction a as [err res|e|msg next IH|o k IH]; intros st; simpl; try reflexivity.
  - destruct err as [e|]; [destruct (final st)|]; reflexivity.
  - rewrite IH. reflexivity.
Qed.

(** Running the action of the item being worked on closes the hole. *)
Lemma settle_core (a : action) :
  forall (st : pool Item) (k h : nat) (x : Item),
    core st k (Some h) -> uncaught st = None ->
    h < k -> items !! h = Some x ->
    conclude answer a = conclude answer (iteratee x) ->
    core (settle h a st) k None.
Proof.
  induction a as [err res|e|msg next IH|o c IH];
    intros st k h x (Hlen & Hfinal & Hflights & Hitems) Hlive Hh Hx Hsame;
    rewrite Hlive in Hitems.
  - destruct err as [e|].
    { exfalso. apply (quiet x e res); [eapply list_elem_of_lookup_2, Hx|].
      rewrite <- Hsame. reflexivity. }
    simpl. unfold pool_core. simpl. rewrite Hlive, length_insert.
    repeat split; try assumption.
    intros i y Hi _ Hy. destruct (decide (i = h)) as [->|Hne].
    + right. exists res. rewrite Hx in Hy. injection Hy as <-.
      split; [rewrite <- Hsame; reflexivity|].
      apply list_lookup_insert_eq. rewrite Hlen. eapply lookup_lt_Some, Hx.
    + destruct (Hitems i y Hi) as [Hfly|(v & Hv & Hres)]; [congruence|exact Hy| |].
      * left. exact Hfly.
      * right. exists v. split; [exact Hv|].
        simpl. rewrite list_lookup_insert_ne by congruence. exact Hres.
  - simpl. unfold pool_core. simpl. repeat split; try assumption.
    exists x. split; [eapply list_elem_of_lookup_2, Hx|]. rewrite <- Hsame. reflexivity.
  - simpl. eapply IH; try eassumption.
    unfold pool_core. simpl. rewrite Hlive. repeat split; assumption.
  - simpl. unfold pool_core. simpl. rewrite Hlive. repeat split; try assumption.
    + intros f Hf. apply elem_of_app in Hf as [Hf|Hf]; [apply Hflights, Hf|].
      apply list_elem_of_singleton in Hf as ->.
      exists x. simpl. repeat split; assumption.
    + intros i y Hi _ Hy. destruct (decide (i = h)) as [->|Hne].
      * left. eexists. split; [apply elem_of_app; right; apply list_elem_of_singleton; reflexivity|].
        reflexivity.
      * destruct (Hitems i y Hi) as [(f & Hf & Hfi)|Hdone]; [congruence|exact Hy| |].
        -- left. exists f. split; [apply elem_of_app; left; exact Hf|exact Hfi].
        -- right. exact Hdone.
Qed.

(** Starting the next item opens a hole at its position. *)
Lemma core_next (st : pool Item) (k : nat) :
  core st k None -> core st (S k) (Some k).
Proof.
  intros (Hlen & Hfinal & Hflights & Hitems). repeat split; try assumption.
  - intros f Hf. destruct (Hflights f Hf) as (x & Hx & Hlt & Hsame).
    exists x. repeat split; [exact Hx|lia|exact Hsame].
  - destruct (uncaught st); [exact Hitems|].
    intros i x Hi Hne Hx. apply Hitems; [|discriminate|exact Hx].
    assert (i <> k) by congruence. lia.
Qed.

Lemma elem_of_delete_other (l : list flight) (j : nat) (f g : flight) :
  l !! j = Some f -> g ∈ l -> index g <> index f -> g ∈ delete j l.
Proof.
  intros Hj Hg Hne. rewrite delete_take_drop.
  rewrite <- (take_drop_middle l j f Hj) in Hg.
  apply elem_of_app in Hg as [Hg|Hg]; apply elem_of_app; [left; exact Hg|].
  apply elem_of_cons in Hg as [->|Hg]; [contradiction|right; exact Hg].
Qed.

Lemma elem_of_delete_inv (l : list flight) (j : nat) (g : flight) :
  g ∈ delete j l -> g ∈ l.
Proof.
  intros Hg. eapply elem_of_sublist; [exact Hg|apply sublist_delete].
Qed.

(** Taking a flight out to answer it opens a hole at its item. *)
Lemma core_answering (st : pool Item) (k j : nat) (f : flight) :
  core st k None -> running st !! j = Some f ->
  core (set_running (delete j (running st)) st) k (Some (index f)).
Proof.
  intros (Hlen & Hfinal & Hflights & Hitems) Hj.
  unfold pool_core. simpl. repeat split; try assumption.
  - intros g Hg. apply Hflights. eapply elem_of_delete_inv, Hg.
  - destruct (uncaught st); [exact Hitems|].
    intros i x Hi Hne Hx.
    destruct (Hitems i x Hi) as [(g & Hg & Hgi)|Hdone]; [discriminate|exact Hx| |].
    + left. exists g. split; [|exact Hgi].
      eapply elem_of_delete_other; [exact Hj|exact Hg|]. congruence.
    + right. exact Hdone.
Qed.

Lemma replenish_inv (q : list (nat * Item)) :
  forall (st : pool Item) (k : nat),
    q = drop k (number 0 items) -> core st k None ->
    inv (replenish limit iteratee q st).
Proof.
  induction q as [|[i x] q IH]; intros st k Hq Hcore; simpl.
  - pose proof Hcore as (Hlen & Hfinal & Hflights & Hitems).
    unfold finish, halted. simpl. rewrite Hfinal.
    destruct (uncaught st) as [e|] eqn:Hlive.
    + left. exists k. split; [exact Hq|]. split; [exact Hcore|].
      simpl. rewrite Hlive. discriminate.
    + destruct (running st) as [|f fs] eqn:Hrun.
      * right. repeat split; simpl; try assumption.
        intros j y Hy.
        destruct (Hitems j y) as [(f & Hf & _)|Hdone]; [|discriminate|exact Hy| |exact Hdone].
        -- apply lookup_lt_Some in Hy. symmetry in Hq. apply queue_empty in Hq. lia.
        -- rewrite Hrun in Hf. apply elem_of_nil in Hf. destruct Hf.
      * left. exists k. split; [exact Hq|]. split; [exact Hcore|].
        simpl. rewrite Hrun. discriminate.
  - symmetry in Hq. pose proof Hq as Hq'. apply queue_head in Hq as (-> & Hx & ->).
    pose proof Hcore as (Hlen & Hfinal & Hflights & Hitems).
    destruct (halted st || negb (length (running st) <? limit)) eqn:Hstop.
    + left. exists k. split; [symmetry; exact Hq'|]. split; [exact Hcore|].
      simpl. intros Hlive Hrun. unfold halted in Hstop.
      rewrite Hlive, Hfinal, Hrun in Hstop. simpl in Hstop.
      apply negb_true_iff, Nat.ltb_ge in Hstop. lia.
    + apply orb_false_elim in Hstop as [Hgo _].
      assert (Hlive : uncaught st = None).
      { unfold halted in Hgo. destruct (uncaught st); [discriminate|reflexivity]. }
      apply (IH _ (S k)); [reflexivity|].
      eapply settle_core; [apply core_next, Hcore|exact Hlive|lia|exact Hx|reflexivity].
Qed.

(** An action that neither reports nor throws has left an operation
    outstanding. *)
Lemma settle_leaves_flight (i : nat) (a : action) :
  forall st : pool Item,
    reports_ok a = false -> uncaught (settle i a st) = None ->
    (forall (e : error) (v : value), conclude answer a <> Reported (Some e) v) ->
    running (settle i a st) <> [].
Proof.
  induction a as [err res|e|msg next IH|o c IH]; intros st Hno Hlive Hq; simpl in *.
  - destruct err as [e|]; [|discriminate]. destruct (Hq e res). reflexivity.
  - discriminate.
  - apply IH; assumption.
  - intros Hnil. apply app_eq_nil in Hnil as [_ Hnil]. discriminate.
Qed.

Lemma complete_inv (n : nat) (st : pool Item) :
  inv st -> inv (complete limit iteratee answer n st).
Proof.
  intros [(k & Hq & Hcore & Hbusy)|Hdone]; unfold complete.
  - destruct (uncaught st) as [e|] eqn:Hlive.
    { left. exists k. split; [exact Hq|]. split; [exact Hcore|]. rewrite Hlive. discriminate. }
    specialize (Hbusy eq_refl).
    assert (Hlt : n `mod` length (running st) < length (running st)).
    { apply Nat.mod_upper_bound. destruct (running st); [contradiction|simpl; lia]. }
    apply lookup_lt_is_Some_2 in Hlt as [f Hf]. rewrite Hf.
    pose proof Hcore as (_ & _ & Hflights & _).
    destruct (Hflights f (list_elem_of_lookup_2 _ _ _ Hf)) as (x & Hx & Hlt & Hsame).
    pose proof (core_answering st k _ f Hcore Hf) as Hopen.
    pose proof (settle_core _ _ k (index f) x Hopen Hlive Hlt Hx Hsame) as Hclosed.
    destruct (reports_ok _) eqn:Hok.
    + eapply replenish_inv; [|exact Hclosed]. rewrite settle_queue. exact Hq.
    + left. exists k. split; [|split; [exact Hclosed|]].
      * rewrite settle_queue. exact Hq.
      * intros Hlive'. apply (settle_leaves_flight _ _ _ Hok Hlive').
        intros e v. rewrite Hsame. apply quiet. eapply list_elem_of_lookup_2, Hx.
  - pose proof Hdone as (_ & Hrun & Hlive & _). rewrite Hlive, Hrun. simpl.
    right. exact Hdone.
Qed.

Lemma start_inv : inv (start limit iteratee items).
Proof.
  unfold start. apply (replenish_inv _ _ 0); [reflexivity|].
  unfold pool_core. simpl. rewrite length_replicate. repeat split.
  - intros f Hf. apply elem_of_nil in Hf. destruct Hf.
  - intros i x Hi. lia.
Qed.

Lemma mapLimit_inv (sched : list nat) : inv (mapLimit limit iteratee answer items sched).
Proof.
  unfold mapLimit. generalize start_inv. generalize (start limit iteratee items).
  induction sched as [|n sched IH]; intros st Hinv; simpl; [exact Hinv|].
  apply IH, complete_inv, Hinv.
Qed.

(** *** Progress *)

Lemma flights_load_app (fs gs : list flight) :
  flights_load answer (fs ++ gs) = flights_load answer fs + flights_load answer gs.
Proof. induction fs as [|f fs IH]; simpl; [reflexivity|]. rewrite IH. lia. Qed.

Lemma flights_load_delete (fs : list flight) :
  forall (j : nat) (f : flight),
    fs !! j = Some f ->
    flights_load answer fs =
      S (cost answer (resume f (answer (operation f)))) + flights_load answer (delete j fs).
Proof.
  induction fs as [|g fs IH]; intros j f Hj; [discriminate|].
  destruct j as [|j]; simpl in *.
  - injection Hj as ->. reflexivity.
  - rewrite (IH j f Hj). lia.
Qed.

Lemma flights_load_nil (fs : list flight) : flights_load answer fs = 0 -> fs = [].
Proof. destruct fs; [reflexivity|discriminate]. Qed.

Lemma queue_load_number (l : list Item) :
  forall j : nat, queue_load iteratee answer (number j l) = work iteratee answer l.
Proof. induction l as [|x l IH]; intros j; simpl; [reflexivity|]. rewrite IH. reflexivity. Qed.

Lemma settle_live (i : nat) (a : action) :
  forall st : pool Item, uncaught (settle i a st) = None -> uncaught st = None.
Proof.
  induction a as [err res|e|msg next IH|o c IH]; intros st; simpl; try tauto.
  - destruct err as [e|]; [destruct (final st)|]; simpl; tauto.
  - discriminate.
  - intros H. apply IH in H. exact H.
Qed.

Lemma replenish_live (q : list (nat * Item)) (st : pool Item) :
  uncaught (replenish limit iteratee q st) = None -> uncaught st = None.
Proof.
  destruct (uncaught st) as [e|] eqn:Hdead; [|reflexivity].
  assert (Hhalted : halted st = true) by (unfold halted; rewrite Hdead; reflexivity).
  destruct q as [|[i x] q]; simpl.
  - unfold finish. simpl. unfold halted in *. simpl. rewrite Hdead. simpl. rewrite Hdead. tauto.
  - rewrite Hhalted. simpl. rewrite Hdead. tauto.
Qed.

Lemma complete_live (n : nat) (st : pool Item) :
  uncaught (complete limit iteratee answer n st) = None -> uncaught st = None.
Proof.
  unfold complete. destruct (uncaught st) as [e|] eqn:Hdead; [|reflexivity].
  rewrite Hdead. tauto.
Qed.

Lemma run_live (sched : list nat) :
  forall st : pool Item,
    uncaught (fold_left (fun st n => complete limit iteratee answer n st) sched st) = None ->
    uncaught st = None.
Proof.
  induction sched as [|n sched IH]; intros st; simpl; [tauto|].
  intros H. apply IH, complete_live in H. exact H.
Qed.

Lemma settle_load (i : nat) (a : action) :
  forall st : pool Item,
    uncaught (settle i a st) = None ->
    flights_load answer (running (settle i a st)) =
      flights_load answer (running st) + cost answer a.
Proof.
  induction a as [err res|e|msg next IH|o c IH]; intros st Hlive; simpl in *.
  - destruct err as [e|]; [destruct (final st)|]; simpl; lia.
  - discriminate.
  - rewrite IH by exact Hlive. reflexivity.
  - rewrite flights_load_app. simpl. lia.
Qed.

Lemma finish_load (st : pool Item) : load iteratee answer (finish st) = load iteratee answer st.
Proof.
  unfold finish. destruct (halted st); [reflexivity|].
  destruct (queue st), (running st); reflexivity.
Qed.

Lemma replenish_load (q : list (nat * Item)) :
  forall st : pool Item,
    uncaught (replenish limit iteratee q st) = None ->
    load iteratee answer (replenish limit iteratee q st) =
      flights_load answer (running st) + queue_load iteratee answer q.
Proof.
  induction q as [|[i x] q IH]; intros st Hlive; simpl in *.
  - rewrite finish_load. reflexivity.
  - destruct (halted st || negb (length (running st) <? limit)); [reflexivity|].
    rewrite IH by exact Hlive.
    rewrite settle_load; [lia|]. eapply replenish_live, Hlive.
Qed.

(** Answering an operation takes one unit of the load away. *)
Lemma complete_load (n : nat) (st : pool Item) :
  running st <> [] ->
  uncaught (complete limit iteratee answer n st) = None ->
  S (load iteratee answer (complete limit iteratee answer n st)) = load iteratee answer st.
Proof.
  intros Hbusy Hlive. pose proof (complete_live _ _ Hlive) as Hlive0.
  unfold complete in *. rewrite Hlive0 in *.
  assert (Hlt : n `mod` length (running st) < length (running st)).
  { apply Nat.mod_upper_bound. destruct (running st); [contradiction|simpl; lia]. }
  apply lookup_lt_is_Some_2 in Hlt as [f Hf]. rewrite Hf in *.
  unfold load at 2. rewrite (flights_load_delete _ _ _ Hf).
  destruct (reports_ok _).
  - rewrite replenish_load by exact Hlive.
    rewrite settle_load by (eapply replenish_live, Hlive).
    rewrite settle_queue. simpl. lia.
  - unfold load. rewrite settle_load by exact Hlive.
    rewrite settle_queue. simpl. lia.
Qed.

Lemma finished_load (st : pool Item) : finished st -> load iteratee answer st = 0.
Proof. intros (Hq & Hr & _). unfold load. rewrite Hq, Hr. reflexivity. Qed.

Lemma finished_complete (n : nat) (st : pool Item) :
  finished st -> complete limit iteratee answer n st = st.
Proof. intros (_ & Hr & Hlive & _). unfold complete. rewrite Hlive, Hr. reflexivity. Qed.

Lemma idle_finished (st : pool Item) :
  inv st -> uncaught st = None -> running st = [] -> finished st.
Proof.
  intros [(k & _ & _ & Hbusy)|Hdone] Hlive Hidle; [|exact Hdone].
  destruct (Hbusy Hlive Hidle).
Qed.

(** A schedule at least as long as the load drains the pool, unless the
    process dies first. *)
Lemma run_finishes (sched : list nat) :
  forall st : pool Item,
    inv st ->
    load iteratee answer st <= length sched ->
    uncaught (fold_left (fun st n => complete limit iteratee answer n st) sched st) = None ->
    finished (fold_left (fun st n => complete limit iteratee answer n st) sched st).
Proof.
  induction sched as [|n sched IH]; intros st Hinv Hload Hlive; simpl in *.
  - apply idle_finished; [exact Hinv|exact Hlive|].
    apply flights_load_nil. unfold load in Hload. lia.
  - apply IH; [apply complete_inv, Hinv| |exact Hlive].
    destruct (running st) as [|f fs] eqn:Hrun.
    + assert (Hdone : finished st).
      { apply idle_finished; [exact Hinv| |exact Hrun].
        eapply complete_live, run_live, Hlive. }
      rewrite finished_complete, finished_load by exact Hdone. lia.
    + assert (Hstep := complete_load n st).
      rewrite Hrun in Hstep. specialize (Hstep ltac:(discriminate)).
      specialize (Hstep (run_live _ _ Hlive)). lia.
Qed.

Lemma start_load :
  uncaught (start limit iteratee items) = None ->
  load iteratee answer (start limit iteratee items) = work iteratee answer items.
Proof.
  intros Hlive. unfold start in *. rewrite replenish_load by exact Hlive.
  simpl. apply queue_load_number.
Qed.

(** A pool that is still alive after a long enough schedule has handed
    every item's result to the final callback. *)
Lemma mapLimit_finishes (sched : list nat) :
  work iteratee answer items <= length sched ->
  uncaught (mapLimit limit iteratee answer items sched) = None ->
  finished (mapLimit limit iteratee answer items sched).
Proof.
  intros Hlong Hlive. unfold mapLimit in *.
  apply run_finishes; [apply start_inv| |exact Hlive].
  rewrite start_load; [exact Hlong|]. eapply run_live, Hlive.
Qed.

End Quiet.

(** ** What the final callback of a pool receives *)

Section Collect.

Context {Item : Type}.
Variable limit : nat.
Variable iteratee : Item -> action.
Variable answer : op -> response.
Variable items : list Item.

Hypothesis limit_pos : 0 < limit.

(** When every item reports a result, the final callback receives the
    results in the order of the items, whatever the order of the answers. *)
Lemma mapLimit_collects (f : Item -> value) (sched : list nat) :
  (forall x : Item, x ∈ items -> conclude answer (iteratee x) = Reported None (f x)) ->
  work iteratee answer items <= length sched ->
  final (mapLimit limit iteratee answer items sched) = CalledOk (f <$> items) /\
  uncaught (mapLimit limit iteratee answer items sched) = None /\
  running (mapLimit limit iteratee answer items sched) = [].
Proof.
  intros Hall Hlong.
  assert (Hquiet : forall (x : Item) (e : error) (v : value),
            x ∈ items -> conclude answer (iteratee x) <> Reported (Some e) v).
  { intros x e v Hx. rewrite (Hall x Hx). discriminate. }
  pose proof (mapLimit_inv limit iteratee answer items limit_pos Hquiet sched) as Hinv.
  assert (Hlive : uncaught (mapLimit limit iteratee answer items sched) = None).
  { destruct Hinv as [(k & _ & (_ & _ & _ & Hdead) & _)|(_ & _ & Hlive & _)]; [|exact Hlive].
    destruct (uncaught _) as [e|]; [|reflexivity].
    destruct Hdead as (x & Hx & Hthrown). rewrite (Hall x Hx) in Hthrown. discriminate. }
  destruct (mapLimit_finishes limit iteratee answer items limit_pos Hquiet sched Hlong Hlive)
    as (_ & Hrun & _ & Hfinal & Hlen & Hres).
  repeat split; [|exact Hlive|exact Hrun].
  rewrite Hfinal. f_equal. apply list_eq. intros i.
  rewrite list_lookup_fmap.
  destruct (items !! i) as [x|] eqn:Hx; simpl.
  - destruct (Hres i x Hx) as (v & Hv & Hi).
    rewrite (Hall x (list_elem_of_lookup_2 _ _ _ Hx)) in Hv. injection Hv as <-. exact Hi.
  - apply lookup_ge_None. rewrite Hlen. apply lookup_ge_None. exact Hx.
Qed.

(** When some item's action throws and none reports an error, the final
    callback is never invoked, and a long enough schedule ends with the
    exception uncaught. *)
Lemma mapLimit_throws (x : Item) (e : exn) (sched : list nat) :
  (forall (y : Item) (e' : error) (v : value),
     y ∈ items -> conclude answer (iteratee y) <> Reported (Some e') v) ->
  x ∈ items -> conclude answer (iteratee x) = Thrown e ->
  final (mapLimit limit iteratee answer items sched) = NotCalled /\
  (work iteratee answer items <= length sched ->
   exists (y : Item) (e' : exn),
     y ∈ items /\ conclude answer (iteratee y) = Thrown e' /\
     uncaught (mapLimit limit iteratee answer items sched) = Some e').
Proof.
  intros Hquiet Hx Hthrown.
  pose proof (mapLimit_inv limit iteratee answer items limit_pos Hquiet sched) as Hinv.
  assert (Hopen : ~ pool_finished iteratee answer items (mapLimit limit iteratee answer items sched)).
  { intros (_ & _ & _ & _ & _ & Hres).
    apply list_elem_of_lookup_1 in Hx as [i Hi].
    destruct (Hres i x Hi) as (v & Hv & _). rewrite Hthrown in Hv. discriminate. }
  split.
  - destruct Hinv as [(k & _ & (_ & Hfinal & _) & _)|Hdone]; [exact Hfinal|].
    destruct (Hopen Hdone).
  - intros Hlong.
    destruct (uncaught (mapLimit limit iteratee answer items sched)) as [e'|] eqn:Hlive.
    + destruct Hinv as [(k & _ & (_ & _ & _ & Hdead) & _)|Hdone]; [|destruct (Hopen Hdone)].
      rewrite Hlive in Hdead. destruct Hdead as (y & Hy & Hye).
      exists y, e'. repeat split; assumption.
    + destruct Hopen.
      apply (mapLimit_finishes limit iteratee answer items limit_pos Hquiet sched Hlong Hlive).
Qed.

End Collect.

(** ** Plan building *)

Lemma makeLocalTask_work (P : PathModule) (answer : op -> response) (rootPath : string)
    (paths : list string) :
  work (makeLocalTask P rootPath) answer paths = length paths.
Proof.
  induction paths as [|p paths IH]; simpl; [reflexivity|]. rewrite IH.
  destruct (snd (answer (Lstat p))) as [|st|l]; try reflexivity.
  destruct (isFile st); reflexivity.
Qed.

Lemma makeLocalTask_found (w : World) (rootPath p : string) (st : Stats) :
  lstat w p = inr st ->
  conclude (respond w) (makeLocalTask (path w) rootPath p) =
    Reported None (plan_entry w rootPath p).
Proof.
  intros Hst. rewrite makeLocalTask_conclude. unfold plan_entry, regular. simpl.
  rewrite Hst. simpl. destruct (isFile st); reflexivity.
Qed.

Lemma makeLocalTask_failed (w : World) (rootPath p : string) (e : error) :
  lstat w p = inl e ->
  conclude (respond w) (makeLocalTask (path w) rootPath p) =
    Thrown (TypeError "Cannot read property 'isFile' of undefined").
Proof. intros He. rewrite makeLocalTask_conclude. simpl. rewrite He. reflexivity. Qed.

(** [makeLocalTask] has no path to [done(err)]. *)
Lemma makeLocalTask_quiet (P : PathModule) (answer : op -> response)
    (rootPath p : string) (e : error) (v : value) :
  conclude answer (makeLocalTask P rootPath p) <> Reported (Some e) v.
Proof.
  rewrite makeLocalTask_conclude.
  destruct (snd (answer (Lstat p))) as [|st|l]; try discriminate.
  destruct (isFile st); discriminate.
Qed.

Lemma MAX_PARALLEL_pos : 0 < MAX_PARALLEL.
Proof. unfold MAX_PARALLEL. lia. Qed.

(** The two ways [buildLocalExecutionPlan] gets past the walk. *)
Lemma buildLocalExecutionPlan_walked (w : World) (rootPath : string)
    (searchPattern : option string) (sched : list nat) (paths : list string) :
  glob w (Path.format (path w) rootPath (pattern_or_default searchPattern)) = inr paths ->
  let p := mapLimit MAX_PARALLEL (makeLocalTask (path w) rootPath) (respond w) paths sched in
  callback (buildLocalExecutionPlan w rootPath searchPattern sched) = final p /\
  crash (buildLocalExecutionPlan w rootPath searchPattern sched) = uncaught p.
Proof.
  intros Hwalk. unfold buildLocalExecutionPlan. simpl. rewrite Hwalk. split; reflexivity.
Qed.

Lemma count_plan_entries (w : World) (rootPath : string) (paths : list string) :
  length (List.filter truthy (plan_entry w rootPath <$> paths)) =
  length (List.filter (regular w) paths).
Proof.
  induction paths as [|p paths IH]; simpl; [reflexivity|].
  unfold plan_entry at 1. destruct (regular w p); simpl; [f_equal|]; exact IH.
Qed.

(** C1, as amended: when the walk succeeds and every [lstat] succeeds,
    the plan has one entry per matched path, in match order: the file
    task for a path that [lstat] reports as a regular file, [undefined]
    for any other.  The placeholders stay in the sequence, so its length
    is the number of matched paths; the number of tasks among its entries
    is the number of regular files. *)
Theorem buildLocalExecutionPlan_entries :
  forall (w : World) (rootPath : string) (searchPattern : option string)
         (sched : list nat) (paths : list string),
    glob w (Path.format (path w) rootPath (pattern_or_default searchPattern)) = inr paths ->
    (forall p : string, In p paths -> exists st : Stats, lstat w p = inr st) ->
    length paths <= length sched ->
    exists tasks : list value,
      callback (buildLocalExecutionPlan w rootPath searchPattern sched) = CalledOk tasks /\
      crash (buildLocalExecutionPlan w rootPath searchPattern sched) = None /\
      tasks = map (plan_entry w rootPath) paths /\
      length tasks = length paths /\
      (forall (i : nat) (p : string),
         paths !! i = Some p ->
         tasks !! i =
           Some (if regular w p
                 then VTask {| type := "file"; localPath := p;
                               remotePath := Path.relative (path w) rootPath p |}
                 else VUndefined)) /\
      length (List.filter truthy tasks) = length (List.filter (regular w) paths).
Proof.
  intros w rootPath searchPattern sched paths Hwalk Hstat Hlong.
  destruct (buildLocalExecutionPlan_walked w rootPath searchPattern sched paths Hwalk)
    as [Hcb Hcrash].
  destruct (mapLimit_collects MAX_PARALLEL (makeLocalTask (path w) rootPath) (respond w)
              paths MAX_PARALLEL_pos (plan_entry w rootPath) sched) as (Hfinal & Hlive & _).
  - intros p Hp. apply list_elem_of_In, Hstat in Hp as [st Hst].
    eapply makeLocalTask_found, Hst.
  - rewrite makeLocalTask_work. exact Hlong.
  - exists (map (plan_entry w rootPath) paths). repeat split.
    + rewrite Hcb. exact Hfinal.
    + rewrite Hcrash. exact Hlive.
    + apply length_map.
    + intros i p Hp. change (map (plan_entry w rootPath) paths) with (plan_entry w rootPath <$> paths).
      rewrite list_lookup_fmap, Hp. reflexivity.
    + apply count_plan_entries.
Qed.

Lemma buildLocalExecutionPlan_entries_witness :
  exists tasks : list value,
    callback (buildLocalExecutionPlan Sample.site "/site" None [2; 0; 1; 0]) = CalledOk tasks /\
    crash (buildLocalExecutionPlan Sample.site "/site" None [2; 0; 1; 0]) = None /\
    tasks = map (plan_entry Sample.site "/site")
              ["/site/index.html"; "/site/css"; "/site/css/style.css"; "/site/img"] /\
    length tasks = 4 /\
    (forall (i : nat) (p : string),
       ["/site/index.html"; "/site/css"; "/site/css/style.css"; "/site/img"] !! i = Some p ->
       tasks !! i =
         Some (if regular Sample.site p
               then VTask {| type := "file"; localPath := p;
                             remotePath := Path.relative (path Sample.site) "/site" p |}
               else VUndefined)) /\
    length (List.filter truthy tasks) =
      length (List.filter (regular Sample.site)
                ["/site/index.html"; "/site/css"; "/site/css/style.css"; "/site/img"]).
Proof.
  apply (buildLocalExecutionPlan_entries Sample.site "/site" None [2; 0; 1; 0]).
  - reflexivity.
  - intros p Hp. simpl in Hp.
    destruct Hp as [<-|[<-|[<-|[<-|[]]]]]; eexists; vm_compute; reflexivity.
  - simpl. lia.
Defined.

(** C1, as stated, fails: when the walk matches the directory /site/img
    and nothing else, the plan handed to the callback is [undefined]; the
    skipped entry is in the sequence, whose length is 1 while there is no
    regular file. *)
Lemma plan_keeps_skipped_entries :
  callback (buildLocalExecutionPlan Sample.only_img "/site" None [0]) = CalledOk [VUndefined] /\
  List.filter (regular Sample.only_img) ["/site/img"] = [] /\
  length [VUndefined] <> length (List.filter (regular Sample.only_img) ["/site/img"]).
Proof. split; [vm_compute; reflexivity|]. split; [vm_compute; reflexivity|]. vm_compute. lia. Qed.

(** C6 on the code: when [lstat] fails for a matched path,
    [buildLocalExecutionPlan] never invokes its callback, neither with
    that error nor with a plan; once every [lstat] has been answered the
    process has died of the TypeError thrown by [stat.isFile()]. *)
Theorem buildLocalExecutionPlan_lstat_failure :
  forall (w : World) (rootPath : string) (searchPattern : option string)
         (sched : list nat) (paths : list string) (p : string) (e : error),
    glob w (Path.format (path w) rootPath (pattern_or_default searchPattern)) = inr paths ->
    In p paths -> lstat w p = inl e ->
    callback (buildLocalExecutionPlan w rootPath searchPattern sched) = NotCalled /\
    (length paths <= length sched ->
     crash (buildLocalExecutionPlan w rootPath searchPattern sched) =
       Some (TypeError "Cannot read property 'isFile' of undefined")).
Proof.
  intros w rootPath searchPattern sched paths p e Hwalk Hp He.
  destruct (buildLocalExecutionPlan_walked w rootPath searchPattern sched paths Hwalk)
    as [Hcb Hcrash].
  destruct (mapLimit_throws MAX_PARALLEL (makeLocalTask (path w) rootPath) (respond w)
              paths MAX_PARALLEL_pos p
              (TypeError "Cannot read property 'isFile' of undefined") sched)
    as [Hfinal Hdead].
  - intros y e' v _. apply makeLocalTask_quiet.
  - apply list_elem_of_In, Hp.
  - eapply makeLocalTask_failed, He.
  - split; [rewrite Hcb; exact Hfinal|].
    intros Hlong. rewrite makeLocalTask_work in Hdead.
    destruct (Hdead Hlong) as (y & e' & _ & Hy & Hlive).
    rewrite Hcrash, Hlive. f_equal.
    rewrite makeLocalTask_conclude in Hy.
    destruct (snd (respond w (Lstat y))) as [|st|l]; try (injection Hy as <-; reflexivity).
    destruct (isFile st); discriminate.
Qed.

Lemma buildLocalExecutionPlan_lstat_failure_witness :
  callback (buildLocalExecutionPlan Sample.stale "/site" None [1; 0]) = NotCalled /\
  (2 <= 2 ->
   crash (buildLocalExecutionPlan Sample.stale "/site" None [1; 0]) =
     Some (TypeError "Cannot read property 'isFile' of undefined")).
Proof.
  apply (buildLocalExecutionPlan_lstat_failure Sample.stale "/site" None [1; 0]
           ["/site/index.html"; "/site/gone.txt"] "/site/gone.txt" "ENOENT").
  - reflexivity.
  - simpl. right. left. reflexivity.
  - reflexivity.
Defined.

(** ** The upload executor as written *)

(** [executeTaskOnS3] either skips the task or throws. *)
Lemma executeTaskOnS3_cases (s3 : S3) (bucketName : string) (task : value) :
  executeTaskOnS3 s3 bucketName task =
    if skipped task then Callback None VUndefined
    else Throw (TypeError "Cannot read property 'lookup' of undefined").
Proof.
  unfold executeTaskOnS3, executeTaskOnS3_body.
  destruct (skipped task); [reflexivity|]. destruct task; reflexivity.
Qed.

Section Synchronous.

Context {Item : Type}.
Variable limit : nat.
Variable iteratee : Item -> action.
Variable answer : op -> response.
Variable skip : Item -> bool.
Variable e0 : exn.

Hypothesis limit_pos : 0 < limit.
Hypothesis synchronous :
  forall x : Item, iteratee x = if skip x then Callback None VUndefined else Throw e0.

Lemma replenish_dead (q : list (nat * Item)) (st : pool Item) (e : exn) :
  uncaught st = Some e -> replenish limit iteratee q st = set_queue q st.
Proof.
  intros Hdead.
  assert (Hhalted : forall q' : list (nat * Item), halted (set_queue q' st) = true).
  { intros q'. unfold halted. simpl. rewrite Hdead. reflexivity. }
  destruct q as [|[i x] q]; simpl.
  - unfold finish. rewrite Hhalted. reflexivity.
  - specialize (Hhalted (queue st)). unfold halted in *. simpl in Hhalted.
    rewrite Hhalted. reflexivity.
Qed.

Lemma replenish_synchronous (q : list (nat * Item)) :
  forall st : pool Item,
    silent st -> final st = NotCalled -> uncaught st = None ->
    silent (replenish limit iteratee q st) /\
    if forallb (fun ix => skip (snd ix)) q
    then (exists r : list value, final (replenish limit iteratee q st) = CalledOk r) /\
         uncaught (replenish limit iteratee q st) = None
    else final (replenish limit iteratee q st) = NotCalled /\
         uncaught (replenish limit iteratee q st) = Some e0.
Proof.
  induction q as [|[i x] q IH]; intros st (Hrun & Htrace & Hpeak) Hfinal Hlive; simpl.
  - unfold finish, halted. simpl. rewrite Hfinal, Hrun, Hlive. simpl.
    repeat split; try assumption. eexists. reflexivity.
  - assert (Hroom : (0 <? limit) = true) by (apply Nat.ltb_lt; exact limit_pos).
    unfold halted. rewrite Hfinal, Hrun, Hlive. cbn [length orb]. rewrite Hroom. cbn [negb].
    rewrite synchronous. destruct (skip x) eqn:Hskip; simpl.
    + apply IH; [repeat split; assumption|exact Hfinal|exact Hlive].
    + erewrite replenish_dead by reflexivity. simpl.
      repeat split; assumption.
Qed.

Lemma idle_run (sched : list nat) (st : pool Item) :
  running st = [] ->
  fold_left (fun st n => complete limit iteratee answer n st) sched st = st.
Proof.
  intros Hrun. induction sched as [|n sched IH]; simpl; [reflexivity|].
  assert (Hsame : complete limit iteratee answer n st = st).
  { unfold complete. rewrite Hrun. destruct (uncaught st); reflexivity. }
  rewrite Hsame. exact IH.
Qed.

Lemma forallb_number (l : list Item) :
  forall j : nat, forallb (fun ix => skip (snd ix)) (number j l) = forallb skip l.
Proof. induction l as [|x l IH]; intros j; simpl; [reflexivity|]. rewrite IH. reflexivity. Qed.

(** A pool over a synchronous iteratee is over before the first answer:
    it succeeds when every item is skipped and dies at the first item
    that is not. *)
Lemma mapLimit_synchronous (items : list Item) (sched : list nat) :
  silent (mapLimit limit iteratee answer items sched) /\
  if forallb skip items
  then (exists r : list value, final (mapLimit limit iteratee answer items sched) = CalledOk r) /\
       uncaught (mapLimit limit iteratee answer items sched) = None
  else final (mapLimit limit iteratee answer items sched) = NotCalled /\
       uncaught (mapLimit limit iteratee answer items sched) = Some e0.
Proof.
  unfold mapLimit, start.
  match goal with |- context [replenish limit iteratee ?q ?st] =>
    pose proof (replenish_synchronous q st) as Hstart end.
  simpl in Hstart. rewrite forallb_number in Hstart.
  destruct Hstart as [Hsilent Hend]; [repeat split|reflexivity|reflexivity|].
  rewrite idle_run by apply Hsilent. split; [exact Hsilent|exact Hend].
Qed.

End Synchronous.

(** How the executor ends on a task list: no operation is ever issued;
    the final callback reports success when every entry is skipped, and
    is never invoked otherwise. *)
Lemma executor_outcome (s3 : S3) (bucketName : string) (answer : op -> response)
    (tasks : list value) (sched : list nat) :
  let p := eachLimit MAX_PARALLEL (executeTaskOnS3 s3 bucketName) answer tasks sched in
  silent p /\
  if forallb skipped tasks
  then without_results (final p) = CalledOk tt /\ uncaught p = None
  else final p = NotCalled /\
       uncaught p = Some (TypeError "Cannot read property 'lookup' of undefined").
Proof.
  cbv zeta. unfold eachLimit.
  destruct (mapLimit_synchronous MAX_PARALLEL (executeTaskOnS3 s3 bucketName) answer skipped
              (TypeError "Cannot read property 'lookup' of undefined") MAX_PARALLEL_pos
              (executeTaskOnS3_cases s3 bucketName) tasks sched) as [Hsilent Hend].
  split; [exact Hsilent|].
  destruct (forallb skipped tasks); [|exact Hend].
  destruct Hend as [[r Hr] Hlive]. rewrite Hr. split; [reflexivity|exact Hlive].
Qed.

(** C8 on the code: for a task with a non-empty [remotePath] the
    function throws at [mime.lookup], before any content type is resolved
    and before [s3.upload] is reached; no operation is issued. *)
Theorem executeTaskOnS3_throws :
  forall (s3 : S3) (bucketName : string) (t : Task) (answer : op -> response),
    remotePath t <> "" ->
    executeTaskOnS3 s3 bucketName (VTask t) =
      Throw (TypeError "Cannot read property 'lookup' of undefined") /\
    issued answer (executeTaskOnS3 s3 bucketName (VTask t)) = [].
Proof.
  intros s3 bucketName t answer Hkey.
  rewrite executeTaskOnS3_cases. unfold skipped. simpl.
  destruct (String.eqb_spec (remotePath t) "") as [He|_]; [contradiction|].
  split; reflexivity.
Qed.

Lemma executeTaskOnS3_throws_witness :
  executeTaskOnS3 Sample.store "my-bucket" (VTask Sample.index_task) =
    Throw (TypeError "Cannot read property 'lookup' of undefined") /\
  issued (respond Sample.site)
    (executeTaskOnS3 Sample.store "my-bucket" (VTask Sample.index_task)) = [].
Proof.
  apply (executeTaskOnS3_throws Sample.store "my-bucket" Sample.index_task (respond Sample.site)).
  discriminate.
Defined.

(** C3 on the code: when the list holds a task that needs a write, then
    whatever the store would answer, the executor never invokes its
    callback, neither with the write's error nor with success: the
    process dies of the TypeError and no upload has been issued. *)
Theorem executor_never_reports_write_failure :
  forall (w : World) (s3 : S3) (bucketName : string) (tasks : list value)
         (sched : list nat) (t : Task),
    In (VTask t) tasks -> remotePath t <> "" ->
    let p := eachLimit MAX_PARALLEL (executeTaskOnS3 s3 bucketName) (respond w) tasks sched in
    final p = NotCalled /\
    uncaught p = Some (TypeError "Cannot read property 'lookup' of undefined") /\
    trace p = [].
Proof.
  intros w s3 bucketName tasks sched t Hin Hkey.
  destruct (executor_outcome s3 bucketName (respond w) tasks sched) as [(_ & Htrace & _) Hend].
  cbv zeta.
  destruct (forallb skipped tasks) eqn:Hall.
  - exfalso. rewrite forallb_forall in Hall. specialize (Hall _ Hin).
    unfold skipped in Hall. simpl in Hall.
    destruct (String.eqb_spec (remotePath t) "") as [He|_]; [contradiction|discriminate].
  - destruct Hend as [Hfinal Hdead]. repeat split; assumption.
Qed.

Lemma executor_never_reports_write_failure_witness :
  let p := eachLimit MAX_PARALLEL (executeTaskOnS3 Sample.read_only_store "my-bucket")
             (respond Sample.only_index) [VTask Sample.index_task] [0] in
  final p = NotCalled /\
  uncaught p = Some (TypeError "Cannot read property 'lookup' of undefined") /\
  trace p = [].
Proof.
  apply (executor_never_reports_write_failure Sample.only_index Sample.read_only_store
           "my-bucket" [VTask Sample.index_task] [0] Sample.index_task).
  - simpl. left. reflexivity.
  - discriminate.
Defined.

(** The same run seen from [uploadDirToS3]: the store would refuse the
    upload of index.html, yet [done] is never invoked. *)
Example uploadDirToS3_refused_upload :
  let r := uploadDirToS3 Sample.only_index "/site" None Sample.read_only_store "my-bucket" [0] [0] in
  callback r = NotCalled /\
  crash r = Some (TypeError "Cannot read property 'lookup' of undefined") /\
  observed r =
    [EvDebug "Discovering files..."; EvOp (Glob "/site/**"); EvOp (Lstat "/site/index.html");
     EvDebug "Discovered 1 files..."; EvDebug "Uploading files Bucket 'my-bucket'"].
Proof. vm_compute. repeat split. Qed.

(** With the module in scope the pool does report a refused write: of
    ten writes the third is refused; answered in order, its error reaches
    the final callback and nothing dies; as written, the run dies before
    the first write. *)
Example third_of_ten_refused :
  let fixed := eachLimit MAX_PARALLEL
                 (executeTaskOnS3_body (Required Sample.html) Sample.store_refusing_f3 "my-bucket")
                 (respond Sample.site) Sample.ten_tasks (repeat 0 10) in
  let written := eachLimit MAX_PARALLEL
                   (executeTaskOnS3 Sample.store_refusing_f3 "my-bucket")
                   (respond Sample.site) Sample.ten_tasks (repeat 0 10) in
  final fixed = CalledErr "SlowDown" /\ uncaught fixed = None /\
  final written = NotCalled /\
  uncaught written = Some (TypeError "Cannot read property 'lookup' of undefined") /\
  trace written = [].
Proof. vm_compute. repeat split. Qed.

(** C10: a [null] or [undefined] entry is answered at once, with no
    error and without issuing any operation, and a plan made of such
    entries runs to success without a remote call. *)
Theorem executeTaskOnS3_skips_placeholders :
  forall (w : World) (s3 : S3) (bucketName : string) (tasks : list value) (sched : list nat),
    (forall v : value, In v tasks -> v = VUndefined \/ v = VNull) ->
    (forall v : value, In v tasks ->
       executeTaskOnS3 s3 bucketName v = Callback None VUndefined /\
       issued (respond w) (executeTaskOnS3 s3 bucketName v) = []) /\
    let p := eachLimit MAX_PARALLEL (executeTaskOnS3 s3 bucketName) (respond w) tasks sched in
    without_results (final p) = CalledOk tt /\ uncaught p = None /\ trace p = [].
Proof.
  intros w s3 bucketName tasks sched Hfalsy. split.
  - intros v Hv. destruct (Hfalsy v Hv) as [-> | ->]; split; reflexivity.
  - destruct (executor_outcome s3 bucketName (respond w) tasks sched) as [(_ & Htrace & _) Hend].
    cbv zeta.
    assert (Hall : forallb skipped tasks = true).
    { apply forallb_forall. intros v Hv. destruct (Hfalsy v Hv) as [-> | ->]; reflexivity. }
    rewrite Hall in Hend. destruct Hend as [Hfinal Hlive]. repeat split; assumption.
Qed.

Lemma executeTaskOnS3_skips_placeholders_witness :
  (forall v : value, In v [VUndefined; VNull; VUndefined] ->
     executeTaskOnS3 Sample.store "my-bucket" v = Callback None VUndefined /\
     issued (respond Sample.site) (executeTaskOnS3 Sample.store "my-bucket" v) = []) /\
  let p := eachLimit MAX_PARALLEL (executeTaskOnS3 Sample.store "my-bucket")
             (respond Sample.site) [VUndefined; VNull; VUndefined] [0; 0] in
  without_results (final p) = CalledOk tt /\ uncaught p = None /\ trace p = [].
Proof.
  apply (executeTaskOnS3_skips_placeholders Sample.site Sample.store "my-bucket"
           [VUndefined; VNull; VUndefined] [0; 0]).
  intros v Hv. simpl in Hv. destruct Hv as [<-|[<-|[<-|[]]]]; [left|right|left]; reflexivity.
Defined.

(** Placeholders are transparent: the executor ends the same way with
    and without them. *)
Lemma placeholders_are_transparent (s3 : S3) (bucketName : string) (answer : op -> response)
    (tasks : list value) (sched : list nat) :
  let p := eachLimit MAX_PARALLEL (executeTaskOnS3 s3 bucketName) answer tasks sched in
  let p' := eachLimit MAX_PARALLEL (executeTaskOnS3 s3 bucketName) answer
              (List.filter truthy tasks) sched in
  without_results (final p) = without_results (final p') /\
  uncaught p = uncaught p' /\ trace p = trace p'.
Proof.
  cbv zeta.
  destruct (executor_outcome s3 bucketName answer tasks sched) as [(_ & Ht & _) Hend].
  destruct (executor_outcome s3 bucketName answer (List.filter truthy tasks) sched)
    as [(_ & Ht' & _) Hend'].
  assert (Hsame : forallb skipped (List.filter truthy tasks) = forallb skipped tasks).
  { clear. induction tasks as [|v tasks IH]; simpl; [reflexivity|].
    destruct v as [| |t]; simpl; rewrite IH; reflexivity. }
  rewrite Hsame in Hend'. rewrite Ht, Ht'.
  destruct (forallb skipped tasks).
  - destruct Hend as [-> ->], Hend' as [-> ->]. repeat split.
  - destruct Hend as [-> ->], Hend' as [-> ->]. repeat split.
Qed.

(** ** The concurrency bound *)

(** C2: with the limit [MAX_PARALLEL], whatever the list and whatever
    the order of the answers, at most 25 [lstat] calls are outstanding in
    the plan-building pool and at most 25 uploads in the upload pool, now
    and at any earlier point ([peak], the high-water mark of the
    outstanding operations); the bound holds for each pool on its own,
    and the plan is only handed over, and the upload pool started, once
    the plan-building pool has nothing outstanding.  The upload half holds whatever [mime]
    denotes in [executeTaskOnS3], in particular for the function as
    written. *)
Theorem outstanding_at_most_MAX_PARALLEL :
  forall (w : World) (rootPath : string) (mime_binding : binding) (s3 : S3)
         (bucketName : string) (paths : list string) (tasks : list value)
         (sched1 sched2 : list nat),
    let plan := mapLimit MAX_PARALLEL (makeLocalTask (path w) rootPath) (respond w) paths sched1 in
    let up := eachLimit MAX_PARALLEL (executeTaskOnS3_body mime_binding s3 bucketName)
                (respond w) tasks sched2 in
    let up_as_written := eachLimit MAX_PARALLEL (executeTaskOnS3 s3 bucketName)
                           (respond w) tasks sched2 in
    (length (running plan) <= peak plan /\ peak plan <= 25) /\
    (length (running up) <= peak up /\ peak up <= 25) /\
    (length (running up_as_written) <= peak up_as_written /\ peak up_as_written <= 25) /\
    (forall r : list value, final plan = CalledOk r -> running plan = []).
Proof.
  intros w rootPath mime_binding s3 bucketName paths tasks sched1 sched2. cbv zeta.
  split; [split; [apply mapLimit_high_water|apply (mapLimit_bounded MAX_PARALLEL)]|].
  split; [split; [apply mapLimit_high_water|apply (mapLimit_bounded MAX_PARALLEL)]|].
  split; [split; [apply mapLimit_high_water|apply (mapLimit_bounded MAX_PARALLEL)]|].
  intros r Hr. eapply mapLimit_at_rest, Hr.
Qed.

Lemma outstanding_at_most_MAX_PARALLEL_witness :
  let plan := mapLimit MAX_PARALLEL (makeLocalTask Path.win32 "C:/site")
                (respond Sample.windows) Sample.hundred (repeat 7 40) in
  let up := eachLimit MAX_PARALLEL
              (executeTaskOnS3_body (Required Sample.html) Sample.store "my-bucket")
              (respond Sample.windows)
              (map (plan_entry Sample.windows "C:/site") Sample.hundred) (repeat 3 60) in
  let up_as_written := eachLimit MAX_PARALLEL (executeTaskOnS3 Sample.store "my-bucket")
                         (respond Sample.windows)
                         (map (plan_entry Sample.windows "C:/site") Sample.hundred)
                         (repeat 3 60) in
  (length (running plan) <= peak plan /\ peak plan <= 25) /\
  (length (running up) <= peak up /\ peak up <= 25) /\
  (length (running up_as_written) <= peak up_as_written /\ peak up_as_written <= 25) /\
  (forall r : list value, final plan = CalledOk r -> running plan = []).
Proof.
  apply (outstanding_at_most_MAX_PARALLEL Sample.windows "C:/site" (Required Sample.html)
           Sample.store "my-bucket" Sample.hundred
           (map (plan_entry Sample.windows "C:/site") Sample.hundred)
           (repeat 7 40) (repeat 3 60)).
Defined.

(** The bound is reached: a hundred matched files keep 25 [lstat] calls
    outstanding, before and after forty answers. *)
Example hundred_files_peak :
  let pool sched :=
    mapLimit MAX_PARALLEL (makeLocalTask Path.win32 "C:/site") (respond Sample.windows)
      Sample.hundred sched in
  peak (pool []) = 25 /\ length (running (pool [])) = 25 /\
  peak (pool (repeat 7 40)) = 25 /\ length (running (pool (repeat 7 40))) = 25 /\
  length (queue (pool (repeat 7 40))) = 35.
Proof. vm_compute. repeat split. Qed.

(** With the module in scope, a hundred uploads keep 25 outstanding. *)
Example hundred_uploads_peak :
  let tasks := map (plan_entry Sample.windows "C:/site") Sample.hundred in
  let pool sched :=
    eachLimit MAX_PARALLEL (executeTaskOnS3_body (Required Sample.html) Sample.store "my-bucket")
      (respond Sample.windows) tasks sched in
  peak (pool (repeat 3 60)) = 25 /\ length (running (pool (repeat 3 60))) = 25 /\
  without_results (final (pool (repeat 0 100))) = CalledOk tt.
Proof. vm_compute. repeat split. Qed.

(** ** The orchestrator *)

(** A policy error is handed to [done] and nothing else happens. *)
Lemma s3WebsiteFromDirectory_policy_error (w : World) (rootPath : string)
    (dirSearchPattern : option string) (s3 : S3) (bucketName : string)
    (sched1 sched2 : list nat) (err : error) :
  putBucketPolicy s3 (createAnonReadPolicy bucketName) = Some err ->
  s3WebsiteFromDirectory w rootPath dirSearchPattern s3 bucketName sched1 sched2 =
    {| callback := CalledErr err; crash := None;
       observed := [EvOp (S3PutBucketPolicy s3 (createAnonReadPolicy bucketName))] |}.
Proof.
  intros Hpolicy. unfold s3WebsiteFromDirectory, configureWebsiteBucket. simpl.
  rewrite Hpolicy. reflexivity.
Qed.

(** An error of the walk is handed to [done] after the policy call, and
    no [lstat] and no upload happens. *)
Lemma s3WebsiteFromDirectory_walk_error (w : World) (rootPath : string)
    (dirSearchPattern : option string) (s3 : S3) (bucketName : string)
    (sched1 sched2 : list nat) (err : error) :
  putBucketPolicy s3 (createAnonReadPolicy bucketName) = None ->
  glob w (Path.format (path w) rootPath (pattern_or_default dirSearchPattern)) = inl err ->
  s3WebsiteFromDirectory w rootPath dirSearchPattern s3 bucketName sched1 sched2 =
    {| callback := CalledErr err; crash := None;
       observed :=
         [EvOp (S3PutBucketPolicy s3 (createAnonReadPolicy bucketName));
          EvDebug ("Made Bucket '" +:+ bucketName +:+ "' readable");
          EvDebug "Discovering files...";
          EvOp (Glob (Path.format (path w) rootPath (pattern_or_default dirSearchPattern)))] |}.
Proof.
  intros Hpolicy Hwalk.
  unfold s3WebsiteFromDirectory, configureWebsiteBucket, uploadDirToS3, buildLocalExecutionPlan.
  simpl. rewrite Hpolicy. simpl. rewrite Hwalk. reflexivity.
Qed.

(** The policy call comes first in every run. *)
Lemma s3WebsiteFromDirectory_policy_first (w : World) (rootPath : string)
    (dirSearchPattern : option string) (s3 : S3) (bucketName : string)
    (sched1 sched2 : list nat) :
  exists rest : list event,
    observed (s3WebsiteFromDirectory w rootPath dirSearchPattern s3 bucketName sched1 sched2) =
      EvOp (S3PutBucketPolicy s3 (createAnonReadPolicy bucketName)) :: rest.
Proof.
  unfold s3WebsiteFromDirectory, configureWebsiteBucket. simpl.
  destruct (putBucketPolicy s3 (createAnonReadPolicy bucketName)); simpl.
  - eexists. reflexivity.
  - destruct (callback (uploadDirToS3 _ _ _ _ _ _ _)); simpl; eexists; reflexivity.
Qed.

(** [done] is never invoked with success. *)
Lemma s3WebsiteFromDirectory_never_succeeds (w : World) (rootPath : string)
    (dirSearchPattern : option string) (s3 : S3) (bucketName : string)
    (sched1 sched2 : list nat) :
  callback (s3WebsiteFromDirectory w rootPath dirSearchPattern s3 bucketName sched1 sched2)
    <> CalledOk tt.
Proof.
  unfold s3WebsiteFromDirectory, configureWebsiteBucket. simpl.
  destruct (putBucketPolicy s3 (createAnonReadPolicy bucketName)); simpl; [discriminate|].
  destruct (callback (uploadDirToS3 _ _ _ _ _ _ _)); simpl; discriminate.
Qed.

(** C4 on the code: when the policy call succeeds and [uploadDirToS3]
    reports success, the orchestrator writes its SUCCESS debug line after
    everything the two phases did and returns; its [done] is not invoked. *)
Theorem s3WebsiteFromDirectory_success_not_surfaced :
  forall (w : World) (rootPath : string) (dirSearchPattern : option string) (s3 : S3)
         (bucketName : string) (sched1 sched2 : list nat),
    putBucketPolicy s3 (createAnonReadPolicy bucketName) = None ->
    callback (uploadDirToS3 w rootPath dirSearchPattern s3 bucketName sched1 sched2) =
      CalledOk tt ->
    let r := s3WebsiteFromDirectory w rootPath dirSearchPattern s3 bucketName sched1 sched2 in
    callback r = NotCalled /\
    observed r =
      observed (configureWebsiteBucket w s3 bucketName) ++
      observed (uploadDirToS3 w rootPath dirSearchPattern s3 bucketName sched1 sched2) ++
      [EvDebug "SUCCESS: Finished Uploading files..."].
Proof.
  intros w rootPath dirSearchPattern s3 bucketName sched1 sched2 Hpolicy Hup.
  unfold s3WebsiteFromDirectory, configureWebsiteBucket. simpl.
  rewrite Hpolicy. simpl. rewrite Hup. split; reflexivity.
Qed.

Lemma s3WebsiteFromDirectory_success_not_surfaced_witness :
  let r := s3WebsiteFromDirectory Sample.only_img "/site" None Sample.store "my-bucket" [0] [] in
  callback r = NotCalled /\
  observed r =
    observed (configureWebsiteBucket Sample.only_img Sample.store "my-bucket") ++
    observed (uploadDirToS3 Sample.only_img "/site" None Sample.store "my-bucket" [0] []) ++
    [EvDebug "SUCCESS: Finished Uploading files..."].
Proof.
  apply (s3WebsiteFromDirectory_success_not_surfaced Sample.only_img "/site" None Sample.store
           "my-bucket" [0] []).
  - reflexivity.
  - vm_compute. reflexivity.
Defined.

(** The whole run on a tree that holds only the directory img: policy,
    walk, [lstat], the SUCCESS line, and no call of [done]. *)
Example s3WebsiteFromDirectory_only_img :
  let r := s3WebsiteFromDirectory Sample.only_img "/site" None Sample.store "my-bucket" [0] [] in
  callback r = NotCalled /\ crash r = None /\
  observed r =
    [EvOp (S3PutBucketPolicy Sample.store (createAnonReadPolicy "my-bucket"));
     EvDebug "Made Bucket 'my-bucket' readable";
     EvDebug "Discovering files..."; EvOp (Glob "/site/**"); EvOp (Lstat "/site/img");
     EvDebug "Discovered 1 files..."; EvDebug "Uploading files Bucket 'my-bucket'";
     EvDebug "SUCCESS: Finished Uploading files..."].
Proof. vm_compute. repeat split. Qed.

(** * Further properties *)

(** ** One [lstat] per matched path *)

Section OneShot.

Context {Item : Type}.
Variable limit : nat.
Variable iteratee : Item -> action.
Variable answer : op -> response.
Variable items : list Item.
Variable op_of : Item -> op.

Hypothesis one_shot :
  forall x : Item,
    exists k : response -> action,
      iteratee x = Issue (op_of x) k /\ forall r : response, terminal (k r).

Lemma settle_terminal (i : nat) (a : action) (st : pool Item) :
  terminal a ->
  queue (settle i a st) = queue st /\ running (settle i a st) = running st /\
  trace (settle i a st) = trace st.
Proof.
  destruct a as [err res|e|msg next|o k]; simpl; try tauto.
  destruct err as [e|]; [destruct (final st)|]; simpl; tauto.
Qed.

Lemma finish_fields (st : pool Item) :
  queue (finish st) = queue st /\ running (finish st) = running st /\
  trace (finish st) = trace st.
Proof.
  unfold finish. destruct (halted st); [repeat split|].
  destruct (queue st) eqn:Hq, (running st) eqn:Hr; simpl; rewrite ?Hq, ?Hr; repeat split.
Qed.

Lemma replenish_traced (q : list (nat * Item)) :
  forall (st : pool Item) (k : nat),
    q = drop k (number 0 items) ->
    trace st = map (fun x => EvOp (op_of x)) (take k items) ->
    (forall f : flight, f ∈ running st -> forall r : response, terminal (resume f r)) ->
    traced items op_of (replenish limit iteratee q st).
Proof.
  induction q as [|[i x] q IH]; intros st k Hq Htrace Hflights; simpl.
  - exists k. destruct (finish_fields (set_queue [] st)) as (-> & -> & ->).
    repeat split; assumption.
  - destruct (halted st || negb (length (running st) <? limit)).
    + exists k. repeat split; assumption.
    + symmetry in Hq. apply (queue_head 1 items Nat.lt_0_1) in Hq as (-> & Hx & ->).
      destruct (one_shot x) as (c & -> & Hc). simpl.
      apply (IH _ (S k)); simpl; [reflexivity| |].
      * rewrite (take_S_r _ _ _ Hx), map_app, Htrace. reflexivity.
      * intros f Hf. apply elem_of_app in Hf as [Hf|Hf]; [apply Hflights, Hf|].
        apply list_elem_of_singleton in Hf as ->. exact Hc.
Qed.

Lemma complete_traced (n : nat) (st : pool Item) :
  traced items op_of st -> traced items op_of (complete limit iteratee answer n st).
Proof.
  intros (k & Hq & Htrace & Hflights). unfold complete.
  destruct (uncaught st); [exists k; repeat split; assumption|].
  destruct (running st !! (n `mod` length (running st))) as [f|] eqn:Hf;
    [|exists k; repeat split; assumption].
  pose proof (Hflights f (list_elem_of_lookup_2 _ _ _ Hf) (answer (operation f))) as Hend.
  destruct (settle_terminal (index f) _
              (set_running (delete (n `mod` length (running st)) (running st)) st) Hend)
    as (Hq' & Hr' & Ht').
  assert (Hflights' : forall g : flight,
            g ∈ running (settle (index f) (resume f (answer (operation f)))
                           (set_running (delete (n `mod` length (running st)) (running st)) st)) ->
            forall r : response, terminal (resume g r)).
  { intros g Hg. rewrite Hr' in Hg. simpl in Hg.
    apply Hflights. eapply elem_of_sublist; [exact Hg|apply sublist_delete]. }
  destruct (reports_ok _).
  - eapply replenish_traced; [rewrite Hq'; exact Hq|rewrite Ht'; exact Htrace|exact Hflights'].
  - exists k. rewrite Hq', Ht'. repeat split; assumption.
Qed.

Lemma mapLimit_traced (sched : list nat) :
  traced items op_of (mapLimit limit iteratee answer items sched).
Proof.
  unfold mapLimit.
  assert (Hstart : traced items op_of (start limit iteratee items)).
  { apply (replenish_traced _ _ 0); [reflexivity|reflexivity|].
    intros f Hf. apply elem_of_nil in Hf. destruct Hf. }
  revert Hstart. generalize (start limit iteratee items).
  induction sched as [|n sched IH]; intros st Hst; simpl; [exact Hst|].
  apply IH, complete_traced, Hst.
Qed.

(** A pool with an empty queue has issued the operation of every item. *)
Lemma traced_drained (st : pool Item) :
  traced items op_of st -> queue st = [] -> trace st = map (fun x => EvOp (op_of x)) items.
Proof.
  intros (k & Hq & Htrace & _) Hempty. rewrite Hempty in Hq. symmetry in Hq.
  apply (queue_empty 1 items Nat.lt_0_1) in Hq. rewrite Htrace, take_ge by exact Hq. reflexivity.
Qed.

(** Before any answer, the pool has issued the operations of the first
    [limit] items and of no other. *)
Lemma replenish_burst (q : list (nat * Item)) :
  forall st : pool Item,
    uncaught st = None -> final st = NotCalled -> length (running st) <= limit ->
    trace (replenish limit iteratee q st) =
      trace st ++ map (fun ix => EvOp (op_of (snd ix))) (take (limit - length (running st)) q).
Proof.
  induction q as [|[i x] q IH]; intros st Hlive Hfinal Hlen; simpl.
  - rewrite take_nil, app_nil_r.
    destruct (finish_fields (set_queue [] st)) as (_ & _ & ->). reflexivity.
  - unfold halted. rewrite Hlive, Hfinal. simpl.
    destruct (Nat.ltb_spec (length (running st)) limit) as [Hroom|Hfull]; simpl.
    + destruct (one_shot x) as (c & -> & Hc). simpl.
      rewrite IH; simpl; try assumption.
      * rewrite length_app. simpl.
        replace (limit - length (running st)) with (S (limit - (length (running st) + 1))) by lia.
        simpl. rewrite <- app_assoc. reflexivity.
      * rewrite length_app. simpl. lia.
    + replace (limit - length (running st)) with 0 by lia. simpl.
      rewrite app_nil_r. reflexivity.
Qed.

Lemma number_take_map (l : list Item) :
  forall j n : nat,
    map (fun ix => EvOp (op_of (snd ix))) (take n (number j l)) =
    map (fun x => EvOp (op_of x)) (take n l).
Proof.
  induction l as [|x l IH]; intros j n; destruct n as [|n]; simpl; try reflexivity.
  rewrite IH. reflexivity.
Qed.

Lemma start_burst :
  trace (start limit iteratee items) = map (fun x => EvOp (op_of x)) (take limit items).
Proof.
  unfold start. rewrite replenish_burst; simpl; try reflexivity; [|lia].
  rewrite Nat.sub_0_r. apply number_take_map.
Qed.

End OneShot.

(** ** Plan building, operation by operation *)

Lemma makeLocalTask_one_shot (P : PathModule) (rootPath p : string) :
  exists k : response -> action,
    makeLocalTask P rootPath p = Issue (Lstat p) k /\ forall r : response, terminal (k r).
Proof.
  eexists. split; [reflexivity|]. intros r. simpl.
  destruct (snd r) as [|st|l]; simpl; try exact I.
  destruct (isFile st); exact I.
Qed.

(** What has been observed of plan building once the walk has answered:
    the debug line, the walk, and the [lstat] of the first matched paths. *)
Lemma buildLocalExecutionPlan_trace (w : World) (rootPath : string)
    (searchPattern : option string) (sched : list nat) (paths : list string) :
  glob w (Path.format (path w) rootPath (pattern_or_default searchPattern)) = inr paths ->
  exists k : nat,
    observed (buildLocalExecutionPlan w rootPath searchPattern sched) =
      [EvDebug "Discovering files...";
       EvOp (Glob (Path.format (path w) rootPath (pattern_or_default searchPattern)))] ++
      map lstat_event (take k paths).
Proof.
  intros Hwalk.
  destruct (mapLimit_traced MAX_PARALLEL (makeLocalTask (path w) rootPath) (respond w) paths
              Lstat (makeLocalTask_one_shot (path w) rootPath) sched) as (k & _ & Htrace & _).
  exists k. unfold buildLocalExecutionPlan. simpl. rewrite Hwalk, Htrace. reflexivity.
Qed.

(** Plan building when every [lstat] succeeds and has been answered. *)
Lemma buildLocalExecutionPlan_ok (w : World) (rootPath : string)
    (searchPattern : option string) (sched : list nat) (paths : list string) :
  glob w (Path.format (path w) rootPath (pattern_or_default searchPattern)) = inr paths ->
  (forall p : string, In p paths -> exists st : Stats, lstat w p = inr st) ->
  length paths <= length sched ->
  buildLocalExecutionPlan w rootPath searchPattern sched =
    {| callback := CalledOk (map (plan_entry w rootPath) paths);
       crash := None;
       observed :=
         [EvDebug "Discovering files...";
          EvOp (Glob (Path.format (path w) rootPath (pattern_or_default searchPattern)))] ++
         map lstat_event paths |}.
Proof.
  intros Hwalk Hstat Hlong.
  assert (Hquiet : forall (x : string) (e : error) (v : value),
            x ∈ paths ->
            conclude (respond w) (makeLocalTask (path w) rootPath x) <> Reported (Some e) v).
  { intros x e v _. apply makeLocalTask_quiet. }
  assert (Hwork : work (makeLocalTask (path w) rootPath) (respond w) paths <= length sched).
  { rewrite makeLocalTask_work. exact Hlong. }
  destruct (mapLimit_collects MAX_PARALLEL (makeLocalTask (path w) rootPath) (respond w)
              paths MAX_PARALLEL_pos (plan_entry w rootPath) sched) as (Hfinal & Hlive & _).
  { intros p Hp. apply list_elem_of_In, Hstat in Hp as [st Hst].
    eapply makeLocalTask_found, Hst. }
  { exact Hwork. }
  destruct (mapLimit_finishes MAX_PARALLEL (makeLocalTask (path w) rootPath) (respond w)
              paths MAX_PARALLEL_pos Hquiet sched Hwork Hlive) as (Hqueue & _).
  pose proof (traced_drained _ Lstat _
                (mapLimit_traced MAX_PARALLEL (makeLocalTask (path w) rootPath) (respond w)
                   paths Lstat (makeLocalTask_one_shot (path w) rootPath) sched) Hqueue)
    as Htrace.
  unfold buildLocalExecutionPlan. simpl. rewrite Hwalk, Hfinal, Hlive, Htrace. reflexivity.
Qed.

(** X1: when the walk fails, [buildLocalExecutionPlan] hands that error
    to its callback and stops: nothing dies and no [lstat] is issued. *)
Theorem walk_error_ends_plan_building :
  forall (w : World) (rootPath : string) (searchPattern : option string)
         (sched : list nat) (err : error),
    glob w (Path.format (path w) rootPath (pattern_or_default searchPattern)) = inl err ->
    buildLocalExecutionPlan w rootPath searchPattern sched =
      {| callback := CalledErr err;
         crash := None;
         observed :=
           [EvDebug "Discovering files...";
            EvOp (Glob (Path.format (path w) rootPath (pattern_or_default searchPattern)))] |}.
Proof.
  intros w rootPath searchPattern sched err Hwalk.
  unfold buildLocalExecutionPlan. simpl. rewrite Hwalk. reflexivity.
Qed.

Lemma walk_error_ends_plan_building_witness :
  buildLocalExecutionPlan Fixture.unreadable "/site" None [0; 1] =
    {| callback := CalledErr "EACCES";
       crash := None;
       observed :=
         [EvDebug "Discovering files...";
          EvOp (Glob (Path.format (path Fixture.unreadable) "/site" (pattern_or_default None)))] |}.
Proof.
  apply (walk_error_ends_plan_building Fixture.unreadable "/site" None [0; 1] "EACCES").
  reflexivity.
Defined.

Lemma buildLocalExecutionPlan_head (w : World) (rootPath : string)
    (searchPattern : option string) (sched : list nat) :
  exists rest : list event,
    observed (buildLocalExecutionPlan w rootPath searchPattern sched) =
      EvDebug "Discovering files..." ::
      EvOp (Glob (Path.format (path w) rootPath (pattern_or_default searchPattern))) :: rest.
Proof.
  unfold buildLocalExecutionPlan. simpl.
  destruct (glob w _) as [e|paths]; simpl; eexists; reflexivity.
Qed.

(** X2: for a non-empty root the walk is asked for the root, the host's
    separator and the search pattern, and an omitted or empty pattern
    stands for the match-everything pattern. *)
Theorem plan_building_glob_expression :
  forall (w : World) (rootPath : string) (sched : list nat),
    rootPath <> "" ->
    let walk_of pattern :=
      [EvDebug "Discovering files...";
       EvOp (Glob (rootPath +:+ Str.of_char (sep (path w)) +:+ pattern))] in
    (forall s : string, s <> "" ->
       take 2 (observed (buildLocalExecutionPlan w rootPath (Some s) sched)) = walk_of s) /\
    take 2 (observed (buildLocalExecutionPlan w rootPath None sched)) = walk_of "**" /\
    take 2 (observed (buildLocalExecutionPlan w rootPath (Some "") sched)) = walk_of "**" /\
    buildLocalExecutionPlan w rootPath None sched =
      buildLocalExecutionPlan w rootPath (Some "**") sched /\
    buildLocalExecutionPlan w rootPath (Some "") sched =
      buildLocalExecutionPlan w rootPath (Some "**") sched.
Proof.
  intros w rootPath sched Hroot. cbv zeta.
  assert (Hformat : forall pattern : string,
            Path.format (path w) rootPath pattern =
            rootPath +:+ Str.of_char (sep (path w)) +:+ pattern).
  { intros pattern. unfold Path.format.
    destruct (String.eqb_spec rootPath "") as [He|_]; [contradiction|reflexivity]. }
  assert (Htake : forall pattern : option string,
            take 2 (observed (buildLocalExecutionPlan w rootPath pattern sched)) =
            [EvDebug "Discovering files...";
             EvOp (Glob (rootPath +:+ Str.of_char (sep (path w)) +:+
                         pattern_or_default pattern))]).
  { intros pattern.
    destruct (buildLocalExecutionPlan_head w rootPath pattern sched) as [rest ->].
    rewrite Hformat. reflexivity. }
  repeat split.
  - intros s Hs. rewrite Htake. simpl.
    destruct (String.eqb_spec s "") as [He|_]; [contradiction|reflexivity].
  - apply Htake.
  - apply Htake.
Qed.

Lemma plan_building_glob_expression_witness :
  let walk_of pattern :=
    [EvDebug "Discovering files...";
     EvOp (Glob ("/site" +:+ Str.of_char (sep (path Sample.site)) +:+ pattern))] in
  (forall s : string, s <> "" ->
     take 2 (observed (buildLocalExecutionPlan Sample.site "/site" (Some s) [0])) = walk_of s) /\
  take 2 (observed (buildLocalExecutionPlan Sample.site "/site" None [0])) = walk_of "**" /\
  take 2 (observed (buildLocalExecutionPlan Sample.site "/site" (Some "") [0])) = walk_of "**" /\
  buildLocalExecutionPlan Sample.site "/site" None [0] =
    buildLocalExecutionPlan Sample.site "/site" (Some "**") [0] /\
  buildLocalExecutionPlan Sample.site "/site" (Some "") [0] =
    buildLocalExecutionPlan Sample.site "/site" (Some "**") [0].
Proof.
  apply (plan_building_glob_expression Sample.site "/site" [0]). discriminate.
Defined.

(** X3: when the walk succeeds and every [lstat] succeeds and has been
    answered, plan building has issued exactly one [lstat] per matched
    path, in match order, whatever the order of the answers, and nothing
    else after the walk. *)
Theorem lstat_once_per_matched_path :
  forall (w : World) (rootPath : string) (searchPattern : option string)
         (sched : list nat) (paths : list string),
    glob w (Path.format (path w) rootPath (pattern_or_default searchPattern)) = inr paths ->
    (forall p : string, In p paths -> exists st : Stats, lstat w p = inr st) ->
    length paths <= length sched ->
    observed (buildLocalExecutionPlan w rootPath searchPattern sched) =
      [EvDebug "Discovering files...";
       EvOp (Glob (Path.format (path w) rootPath (pattern_or_default searchPattern)))] ++
      map lstat_event paths.
Proof.
  intros w rootPath searchPattern sched paths Hwalk Hstat Hlong.
  rewrite (buildLocalExecutionPlan_ok w rootPath searchPattern sched paths Hwalk Hstat Hlong).
  reflexivity.
Qed.

Lemma lstat_once_per_matched_path_witness :
  observed (buildLocalExecutionPlan Sample.site "/site" None [3; 1; 0; 0]) =
    [EvDebug "Discovering files...";
     EvOp (Glob (Path.format (path Sample.site) "/site" (pattern_or_default None)))] ++
    map lstat_event ["/site/index.html"; "/site/css"; "/site/css/style.css"; "/site/img"].
Proof.
  apply (lstat_once_per_matched_path Sample.site "/site" None [3; 1; 0; 0]).
  - reflexivity.
  - intros p Hp. simpl in Hp.
    destruct Hp as [<-|[<-|[<-|[<-|[]]]]]; eexists; vm_compute; reflexivity.
  - simpl. lia.
Defined.

(** X4: at any point of plan building the [lstat] calls issued so far
    are those of a prefix of the matched paths, in match order; before
    the first answer that prefix is the first 25 matched paths. *)
Theorem lstat_follows_match_order :
  forall (w : World) (rootPath : string) (searchPattern : option string)
         (sched : list nat) (paths : list string),
    glob w (Path.format (path w) rootPath (pattern_or_default searchPattern)) = inr paths ->
    let walk :=
      [EvDebug "Discovering files...";
       EvOp (Glob (Path.format (path w) rootPath (pattern_or_default searchPattern)))] in
    (exists k : nat,
       observed (buildLocalExecutionPlan w rootPath searchPattern sched) =
         walk ++ map lstat_event (take k paths)) /\
    observed (buildLocalExecutionPlan w rootPath searchPattern []) =
      walk ++ map lstat_event (take 25 paths).
Proof.
  intros w rootPath searchPattern sched paths Hwalk. cbv zeta. split.
  - apply buildLocalExecutionPlan_trace, Hwalk.
  - unfold buildLocalExecutionPlan. simpl. rewrite Hwalk. unfold mapLimit. simpl fold_left.
    rewrite (start_burst MAX_PARALLEL (makeLocalTask (path w) rootPath) paths Lstat
               (makeLocalTask_one_shot (path w) rootPath)).
    reflexivity.
Qed.

Lemma lstat_follows_match_order_witness :
  let walk :=
    [EvDebug "Discovering files...";
     EvOp (Glob (Path.format (path Fixture.thirty_directories) "/site" (pattern_or_default None)))] in
  (exists k : nat,
     observed (buildLocalExecutionPlan Fixture.thirty_directories "/site" None [4; 4]) =
       walk ++ map lstat_event (take k Fixture.thirty)) /\
  observed (buildLocalExecutionPlan Fixture.thirty_directories "/site" None []) =
    walk ++ map lstat_event (take 25 Fixture.thirty).
Proof.
  apply (lstat_follows_match_order Fixture.thirty_directories "/site" None [4; 4]).
  reflexivity.
Defined.

(** X5: [makeLocalTask] issues exactly one operation, the [lstat] of the
    entry, and whatever [lstat] answers it never hands an error to
    [done]. *)
Theorem makeLocalTask_one_lstat_no_error :
  forall (P : PathModule) (answer : op -> response) (rootPath entryPath : string),
    issued answer (makeLocalTask P rootPath entryPath) = [Lstat entryPath] /\
    forall (e : error) (v : value),
      conclude answer (makeLocalTask P rootPath entryPath) <> Reported (Some e) v.
Proof.
  intros P answer rootPath entryPath. split.
  - unfold makeLocalTask. simpl.
    destruct (snd (answer (Lstat entryPath))) as [|st|l]; try reflexivity.
    destruct (isFile st); reflexivity.
  - intros e v. apply makeLocalTask_quiet.
Qed.

(** ** The root entry *)

Lemma same_head_refl (P : PathModule) (l : list string) : Path.same_head P l l = true.
Proof. destruct l as [|s l]; [reflexivity|]. simpl. apply seg_eqb_refl. Qed.

(** The path from a directory to itself is empty on every host. *)
Lemma relative_self (P : PathModule) (p : string) : Path.relative P p p = "".
Proof.
  unfold Path.relative, Path.relative_segments.
  rewrite same_head_refl, andb_false_r.
  rewrite <- (app_nil_r (Path.resolve P p)) at 2.
  rewrite diverge_prefix. reflexivity.
Qed.

(** X6: whatever [makeLocalTask] reports for the root path itself, be it
    a task or the placeholder, the executor skips it: the task of the
    root has an empty [remotePath]. *)
Theorem root_entry_is_skipped :
  forall (P : PathModule) (answer : op -> response) (s3 : S3) (bucketName rootPath : string)
         (v : value),
    conclude answer (makeLocalTask P rootPath rootPath) = Reported None v ->
    skipped v = true /\
    executeTaskOnS3 s3 bucketName v = Callback None VUndefined /\
    forall t : Task, v = VTask t -> remotePath t = "".
Proof.
  intros P answer s3 bucketName rootPath v Hv.
  rewrite makeLocalTask_conclude, relative_self in Hv.
  assert (Hskip : skipped v = true).
  { destruct (snd (answer (Lstat rootPath))) as [|st|l]; try discriminate.
    destruct (isFile st); injection Hv as <-; reflexivity. }
  split; [exact Hskip|]. split.
  - rewrite executeTaskOnS3_cases, Hskip. reflexivity.
  - intros t ->.
    destruct (snd (answer (Lstat rootPath))) as [|st|l]; try discriminate.
    destruct (isFile st); [|discriminate]. injection Hv as <-. reflexivity.
Qed.

Lemma root_entry_is_skipped_witness :
  skipped (VTask {| type := "file"; localPath := "/site"; remotePath := "" |}) = true /\
  executeTaskOnS3 Sample.store "my-bucket"
    (VTask {| type := "file"; localPath := "/site"; remotePath := "" |}) =
    Callback None VUndefined /\
  forall t : Task,
    VTask {| type := "file"; localPath := "/site"; remotePath := "" |} = VTask t ->
    remotePath t = "".
Proof.
  apply (root_entry_is_skipped Path.posix (respond Fixture.root_is_file) Sample.store
           "my-bucket" "/site").
  vm_compute. reflexivity.
Defined.

(** ** The executor, entry by entry *)

(** X7: for every entry, [executeTaskOnS3] issues no operation and never
    hands an error to [done]: it reports success when the entry is
    skipped and throws otherwise. *)
Theorem executeTaskOnS3_never_uploads :
  forall (s3 : S3) (bucketName : string) (task : value) (answer : op -> response),
    issued answer (executeTaskOnS3 s3 bucketName task) = [] /\
    conclude answer (executeTaskOnS3 s3 bucketName task) =
      (if skipped task then Reported None VUndefined
       else Thrown (TypeError "Cannot read property 'lookup' of undefined")) /\
    forall (e : error) (v : value),
      conclude answer (executeTaskOnS3 s3 bucketName task) <> Reported (Some e) v.
Proof.
  intros s3 bucketName task answer.
  rewrite executeTaskOnS3_cases.
  destruct (skipped task); simpl; repeat split; discriminate.
Qed.

(** ** [uploadDirToS3] as a whole *)

Lemma skipped_plan_entry (w : World) (rootPath p : string) :
  skipped (plan_entry w rootPath p) = negb (uploadable w rootPath p).
Proof.
  unfold plan_entry, uploadable, skipped.
  destruct (regular w p); simpl; [|reflexivity].
  destruct (String.eqb _ ""); reflexivity.
Qed.

Lemma skipped_plan (w : World) (rootPath : string) (paths : list string) :
  forallb skipped (map (plan_entry w rootPath) paths) =
  negb (existsb (uploadable w rootPath) paths).
Proof.
  induction paths as [|p paths IH]; simpl; [reflexivity|].
  rewrite IH, skipped_plan_entry, negb_orb. reflexivity.
Qed.

(** X8: when the walk and every [lstat] succeed and all answers are in,
    [uploadDirToS3] reports success exactly when no matched path is a
    regular file with a non-empty relative path; otherwise [done] is not
    invoked and the process dies of the TypeError.  Either way it has
    observed the walk, one [lstat] per matched path and the two debug
    lines, the first with the number of matched paths, and no call to the
    store. *)
Theorem uploadDirToS3_outcome :
  forall (w : World) (rootPath : string) (dirSearchPattern : option string) (s3 : S3)
         (bucketName : string) (sched1 sched2 : list nat) (paths : list string),
    glob w (Path.format (path w) rootPath (pattern_or_default dirSearchPattern)) = inr paths ->
    (forall p : string, In p paths -> exists st : Stats, lstat w p = inr st) ->
    length paths <= length sched1 ->
    let r := uploadDirToS3 w rootPath dirSearchPattern s3 bucketName sched1 sched2 in
    (if existsb (uploadable w rootPath) paths
     then callback r = NotCalled /\
          crash r = Some (TypeError "Cannot read property 'lookup' of undefined")
     else callback r = CalledOk tt /\ crash r = None) /\
    observed r =
      [EvDebug "Discovering files...";
       EvOp (Glob (Path.format (path w) rootPath (pattern_or_default dirSearchPattern)))] ++
      map lstat_event paths ++
      [EvDebug ("Discovered " +:+ Str.of_nat (length paths) +:+ " files...");
       EvDebug ("Uploading files Bucket '" +:+ bucketName +:+ "'")].
Proof.
  intros w rootPath dirSearchPattern s3 bucketName sched1 sched2 paths Hwalk Hstat Hlong.
  cbv zeta. unfold uploadDirToS3.
  rewrite (buildLocalExecutionPlan_ok w rootPath dirSearchPattern sched1 paths Hwalk Hstat Hlong).
  cbn [callback crash observed].
  destruct (executor_outcome s3 bucketName (respond w) (map (plan_entry w rootPath) paths) sched2)
    as [(_ & Htrace & _) Hend].
  rewrite skipped_plan in Hend. rewrite Htrace, length_map, app_nil_r, <- app_assoc.
  split; [|reflexivity].
  destruct (existsb (uploadable w rootPath) paths); simpl in Hend.
  - destruct Hend as [-> ->]. split; reflexivity.
  - destruct Hend as [-> ->]. split; reflexivity.
Qed.

Lemma uploadDirToS3_outcome_witness :
  let r := uploadDirToS3 Sample.site "/site" None Sample.store "my-bucket" [3; 1; 0; 0] [] in
  (if existsb (uploadable Sample.site "/site")
        ["/site/index.html"; "/site/css"; "/site/css/style.css"; "/site/img"]
   then callback r = NotCalled /\
        crash r = Some (TypeError "Cannot read property 'lookup' of undefined")
   else callback r = CalledOk tt /\ crash r = None) /\
  observed r =
    [EvDebug "Discovering files...";
     EvOp (Glob (Path.format (path Sample.site) "/site" (pattern_or_default None)))] ++
    map lstat_event ["/site/index.html"; "/site/css"; "/site/css/style.css"; "/site/img"] ++
    [EvDebug ("Discovered " +:+
              Str.of_nat (length ["/site/index.html"; "/site/css"; "/site/css/style.css";
                                  "/site/img"]) +:+ " files...");
     EvDebug ("Uploading files Bucket '" +:+ "my-bucket" +:+ "'")].
Proof.
  apply (uploadDirToS3_outcome Sample.site "/site" None Sample.store "my-bucket"
           [3; 1; 0; 0] []).
  - reflexivity.
  - intros p Hp. simpl in Hp.
    destruct Hp as [<-|[<-|[<-|[<-|[]]]]]; eexists; vm_compute; reflexivity.
  - simpl. lia.
Defined.

(** A tree of directories only is "uploaded" with success, and its two
    directories are counted as files. *)
Example uploadDirToS3_directories_only :
  let r := uploadDirToS3 Fixture.only_directories "/site" None Sample.store "my-bucket" [0; 0] [] in
  callback r = CalledOk tt /\ crash r = None /\
  last (observed r) = Some (EvDebug "Uploading files Bucket 'my-bucket'") /\
  In (EvDebug "Discovered 2 files...") (observed r).
Proof. vm_compute. repeat split. right. right. right. right. left. reflexivity. Qed.

(** X9: when the walk fails, [uploadDirToS3] hands that error to [done]
    without starting the upload phase: no [lstat], no debug line of the
    upload phase, no call to the store. *)
Theorem uploadDirToS3_walk_error :
  forall (w : World) (rootPath : string) (dirSearchPattern : option string) (s3 : S3)
         (bucketName : string) (sched1 sched2 : list nat) (err : error),
    glob w (Path.format (path w) rootPath (pattern_or_default dirSearchPattern)) = inl err ->
    uploadDirToS3 w rootPath dirSearchPattern s3 bucketName sched1 sched2 =
      {| callback := CalledErr err;
         crash := None;
         observed :=
           [EvDebug "Discovering files...";
            EvOp (Glob (Path.format (path w) rootPath (pattern_or_default dirSearchPattern)))] |}.
Proof.
  intros w rootPath dirSearchPattern s3 bucketName sched1 sched2 err Hwalk.
  unfold uploadDirToS3, buildLocalExecutionPlan. simpl. rewrite Hwalk. reflexivity.
Qed.

Lemma uploadDirToS3_walk_error_witness :
  uploadDirToS3 Fixture.unreadable "/site" None Sample.store "my-bucket" [0] [0] =
    {| callback := CalledErr "EACCES";
       crash := None;
       observed :=
         [EvDebug "Discovering files...";
          EvOp (Glob (Path.format (path Fixture.unreadable) "/site" (pattern_or_default None)))] |}.
Proof.
  apply (uploadDirToS3_walk_error Fixture.unreadable "/site" None Sample.store "my-bucket"
           [0] [0] "EACCES").
  reflexivity.
Defined.

(** ** The orchestrator as a whole *)

Lemma no_store_call_in_lstats (paths : list string) :
  List.filter is_s3 (map lstat_event paths) = [].
Proof. induction paths as [|p paths IH]; simpl; [reflexivity|exact IH]. Qed.

Lemma buildLocalExecutionPlan_no_store_call (w : World) (rootPath : string)
    (searchPattern : option string) (sched : list nat) :
  List.filter is_s3 (observed (buildLocalExecutionPlan w rootPath searchPattern sched)) = [].
Proof.
  destruct (glob w (Path.format (path w) rootPath (pattern_or_default searchPattern)))
    as [err|paths] eqn:Hwalk.
  - unfold buildLocalExecutionPlan. simpl. rewrite Hwalk. reflexivity.
  - destruct (buildLocalExecutionPlan_trace w rootPath searchPattern sched paths Hwalk)
      as [k ->].
    rewrite List.filter_app, no_store_call_in_lstats. reflexivity.
Qed.

(** [uploadDirToS3] never calls the store. *)
Lemma uploadDirToS3_no_store_call (w : World) (rootPath : string)
    (dirSearchPattern : option string) (s3 : S3) (bucketName : string)
    (sched1 sched2 : list nat) :
  List.filter is_s3
    (observed (uploadDirToS3 w rootPath dirSearchPattern s3 bucketName sched1 sched2)) = [].
Proof.
  pose proof (buildLocalExecutionPlan_no_store_call w rootPath dirSearchPattern sched1) as Hplan.
  unfold uploadDirToS3.
  destruct (callback (buildLocalExecutionPlan w rootPath dirSearchPattern sched1))
    as [|err|tasks]; cbn [observed]; try exact Hplan.
  destruct (executor_outcome s3 bucketName (respond w) tasks sched2) as [(_ & Htrace & _) _].
  rewrite Htrace, !List.filter_app, Hplan. reflexivity.
Qed.

(** The plan-building pool never hands an error to its final callback. *)
Lemma plan_pool_never_errs (w : World) (rootPath : string) (paths : list string)
    (sched : list nat) (e : error) :
  final (mapLimit MAX_PARALLEL (makeLocalTask (path w) rootPath) (respond w) paths sched)
    <> CalledErr e.
Proof.
  destruct (mapLimit_inv MAX_PARALLEL (makeLocalTask (path w) rootPath) (respond w) paths
              MAX_PARALLEL_pos
              (fun x e' v _ => makeLocalTask_quiet (path w) (respond w) rootPath x e' v) sched)
    as [(k & _ & (_ & Hfinal & _) & _)|(_ & _ & _ & Hfinal & _)];
    rewrite Hfinal; discriminate.
Qed.

(** The only error [uploadDirToS3] hands to [done] is the error of the
    walk. *)
Lemma uploadDirToS3_error_is_walk_error (w : World) (rootPath : string)
    (dirSearchPattern : option string) (s3 : S3) (bucketName : string)
    (sched1 sched2 : list nat) (e : error) :
  callback (uploadDirToS3 w rootPath dirSearchPattern s3 bucketName sched1 sched2) = CalledErr e ->
  glob w (Path.format (path w) rootPath (pattern_or_default dirSearchPattern)) = inl e.
Proof.
  unfold uploadDirToS3.
  destruct (callback (buildLocalExecutionPlan w rootPath dirSearchPattern sched1))
    as [|err|tasks] eqn:Hplan; cbn [callback].
  - discriminate.
  - intros He. injection He as <-. revert Hplan.
    unfold buildLocalExecutionPlan. simpl.
    destruct (glob w _) as [err'|paths]; simpl.
    + intros H. injection H as ->. reflexivity.
    + intros H. destruct (plan_pool_never_errs w rootPath paths sched1 err H).
  - destruct (executor_outcome s3 bucketName (respond w) tasks sched2) as [_ Hend].
    destruct (forallb skipped tasks).
    + destruct Hend as [-> _]. discriminate.
    + destruct Hend as [-> _]. discriminate.
Qed.

(** Plan building when some [lstat] fails and all answers are in. *)
Lemma buildLocalExecutionPlan_dies (w : World) (rootPath : string)
    (searchPattern : option string) (sched : list nat) (paths : list string)
    (p : string) (e : error) :
  glob w (Path.format (path w) rootPath (pattern_or_default searchPattern)) = inr paths ->
  In p paths -> lstat w p = inl e -> length paths <= length sched ->
  callback (buildLocalExecutionPlan w rootPath searchPattern sched) = NotCalled /\
  crash (buildLocalExecutionPlan w rootPath searchPattern sched) =
    Some (TypeError "Cannot read property 'isFile' of undefined").
Proof.
  intros Hwalk Hp He Hlong.
  destruct (buildLocalExecutionPlan_walked w rootPath searchPattern sched paths Hwalk)
    as [-> ->].
  destruct (mapLimit_throws MAX_PARALLEL (makeLocalTask (path w) rootPath) (respond w)
              paths MAX_PARALLEL_pos p
              (TypeError "Cannot read property 'isFile' of undefined") sched)
    as [Hfinal Hdead].
  - intros y e' v _. apply makeLocalTask_quiet.
  - apply list_elem_of_In, Hp.
  - eapply makeLocalTask_failed, He.
  - split; [exact Hfinal|].
    rewrite makeLocalTask_work in Hdead.
    destruct (Hdead Hlong) as (y & e' & _ & Hy & ->). f_equal.
    rewrite makeLocalTask_conclude in Hy.
    destruct (snd (respond w (Lstat y))) as [|st|l]; try (injection Hy as <-; reflexivity).
    destruct (isFile st); discriminate.
Qed.

(** X10: when the store refuses the policy, [s3WebsiteFromDirectory]
    hands that error to [done] and nothing else happens: no walk, no
    [lstat], no upload. *)
Theorem policy_failure_stops_the_run :
  forall (w : World) (rootPath : string) (dirSearchPattern : option string) (s3 : S3)
         (bucketName : string) (sched1 sched2 : list nat) (err : error),
    putBucketPolicy s3 (createAnonReadPolicy bucketName) = Some err ->
    let r := s3WebsiteFromDirectory w rootPath dirSearchPattern s3 bucketName sched1 sched2 in
    callback r = CalledErr err /\ crash r = None /\
    observed r = [EvOp (S3PutBucketPolicy s3 (createAnonReadPolicy bucketName))] /\
    r = {| callback := callback (configureWebsiteBucket w s3 bucketName);
           crash := None;
           observed := observed (configureWebsiteBucket w s3 bucketName) |}.
Proof.
  intros w rootPath dirSearchPattern s3 bucketName sched1 sched2 err Hpolicy. cbv zeta.
  unfold s3WebsiteFromDirectory, configureWebsiteBucket. simpl.
  rewrite Hpolicy. repeat split.
Qed.

Lemma policy_failure_stops_the_run_witness :
  let r := s3WebsiteFromDirectory Sample.site "/site" None Fixture.locked_store "my-bucket"
             [0] [0] in
  callback r = CalledErr "AccessDenied" /\ crash r = None /\
  observed r = [EvOp (S3PutBucketPolicy Fixture.locked_store (createAnonReadPolicy "my-bucket"))] /\
  r = {| callback := callback (configureWebsiteBucket Sample.site Fixture.locked_store "my-bucket");
         crash := None;
         observed := observed (configureWebsiteBucket Sample.site Fixture.locked_store
                                 "my-bucket") |}.
Proof.
  apply (policy_failure_stops_the_run Sample.site "/site" None Fixture.locked_store "my-bucket"
           [0] [0] "AccessDenied").
  reflexivity.
Defined.

(** X11: in every run of [s3WebsiteFromDirectory], whatever the tree,
    the store and the order of the answers, the only call to the store is
    the one [putBucketPolicy] for the bucket: no object is ever uploaded. *)
Theorem only_store_call_is_the_policy :
  forall (w : World) (rootPath : string) (dirSearchPattern : option string) (s3 : S3)
         (bucketName : string) (sched1 sched2 : list nat),
    List.filter is_s3
      (observed (s3WebsiteFromDirectory w rootPath dirSearchPattern s3 bucketName sched1 sched2)) =
    [EvOp (S3PutBucketPolicy s3 (createAnonReadPolicy bucketName))].
Proof.
  intros w rootPath dirSearchPattern s3 bucketName sched1 sched2.
  pose proof (uploadDirToS3_no_store_call w rootPath dirSearchPattern s3 bucketName sched1 sched2)
    as Hup.
  unfold s3WebsiteFromDirectory, configureWebsiteBucket. simpl.
  destruct (putBucketPolicy s3 (createAnonReadPolicy bucketName)); simpl; [reflexivity|].
  destruct (callback (uploadDirToS3 w rootPath dirSearchPattern s3 bucketName sched1 sched2));
    simpl; rewrite ?List.filter_app, Hup; reflexivity.
Qed.

(** X12: [s3WebsiteFromDirectory] invokes [done] only with the error of
    the policy call or the error of the walk; in every other run,
    successful or not, [done] is not invoked. *)
Theorem done_only_on_policy_or_walk_error :
  forall (w : World) (rootPath : string) (dirSearchPattern : option string) (s3 : S3)
         (bucketName : string) (sched1 sched2 : list nat),
    let r := s3WebsiteFromDirectory w rootPath dirSearchPattern s3 bucketName sched1 sched2 in
    callback r = NotCalled \/
    exists e : error,
      callback r = CalledErr e /\
      (putBucketPolicy s3 (createAnonReadPolicy bucketName) = Some e \/
       glob w (Path.format (path w) rootPath (pattern_or_default dirSearchPattern)) = inl e).
Proof.
  intros w rootPath dirSearchPattern s3 bucketName sched1 sched2. cbv zeta.
  unfold s3WebsiteFromDirectory, configureWebsiteBucket. simpl.
  destruct (putBucketPolicy s3 (createAnonReadPolicy bucketName)) as [e|]; simpl.
  - right. exists e. split; [reflexivity|left; reflexivity].
  - destruct (callback (uploadDirToS3 w rootPath dirSearchPattern s3 bucketName sched1 sched2))
      as [|e|u] eqn:Hup; simpl; [left; reflexivity| |left; reflexivity].
    right. exists e. split; [reflexivity|]. right.
    eapply uploadDirToS3_error_is_walk_error, Hup.
Qed.

(** X13: when the policy call succeeds and then an [lstat] fails, the
    bucket has been made public, [done] is never invoked and the process
    dies of the TypeError thrown by [stat.isFile()]; nothing is uploaded. *)
Theorem lstat_failure_after_policy :
  forall (w : World) (rootPath : string) (dirSearchPattern : option string) (s3 : S3)
         (bucketName : string) (sched1 sched2 : list nat) (paths : list string)
         (p : string) (e : error),
    putBucketPolicy s3 (createAnonReadPolicy bucketName) = None ->
    glob w (Path.format (path w) rootPath (pattern_or_default dirSearchPattern)) = inr paths ->
    In p paths -> lstat w p = inl e -> length paths <= length sched1 ->
    let r := s3WebsiteFromDirectory w rootPath dirSearchPattern s3 bucketName sched1 sched2 in
    callback r = NotCalled /\
    crash r = Some (TypeError "Cannot read property 'isFile' of undefined") /\
    exists rest : list event,
      observed r =
        EvOp (S3PutBucketPolicy s3 (createAnonReadPolicy bucketName)) ::
        EvDebug ("Made Bucket '" +:+ bucketName +:+ "' readable") :: rest.
Proof.
  intros w rootPath dirSearchPattern s3 bucketName sched1 sched2 paths p e
         Hpolicy Hwalk Hp He Hlong. cbv zeta.
  destruct (buildLocalExecutionPlan_dies w rootPath dirSearchPattern sched1 paths p e
              Hwalk Hp He Hlong) as [Hcb Hcrash].
  unfold s3WebsiteFromDirectory, configureWebsiteBucket. simpl. rewrite Hpolicy. simpl.
  unfold uploadDirToS3. rewrite Hcb. cbn [callback crash observed]. rewrite Hcrash.
  repeat split. eexists. reflexivity.
Qed.

Lemma lstat_failure_after_policy_witness :
  let r := s3WebsiteFromDirectory Sample.stale "/site" None Sample.store "my-bucket" [1; 0] [] in
  callback r = NotCalled /\
  crash r = Some (TypeError "Cannot read property 'isFile' of undefined") /\
  exists rest : list event,
    observed r =
      EvOp (S3PutBucketPolicy Sample.store (createAnonReadPolicy "my-bucket")) ::
      EvDebug ("Made Bucket '" +:+ "my-bucket" +:+ "' readable") :: rest.
Proof.
  apply (lstat_failure_after_policy Sample.stale "/site" None Sample.store "my-bucket" [1; 0] []
           ["/site/index.html"; "/site/gone.txt"] "/site/gone.txt" "ENOENT").
  - reflexivity.
  - reflexivity.
  - simpl. right. left. reflexivity.
  - reflexivity.
  - simpl. lia.
Defined.
